(** * jira-helper.js: a shallow embedding and its verified properties

    The module [src/jira/jira-helper.js] glues a CI run to an issue tracker:
    it creates an execution ticket, uploads JUnit reports, derives related
    ticket keys from the commit log and links the results back.

    Modelling conventions.
    - A JavaScript string is a list of characters ([str]); the text is
      taken to be ASCII, one [ascii] per character.  Case mapping is the
      ASCII one, which is how [toUpperCase] acts on the only strings it
      receives here (the letters, digits and hyphens that [grep] selected
      with bracket ranges read as in the POSIX locale).
    - Regular expressions are a small AST with a declarative semantics
      ([Matches]) and an executable matcher by derivatives.
    - Module-level [let] variables live in a record that every exported
      function threads through; console output, file-system accesses and
      calls to the tracker or to the HTTP client are recorded in a trace.
    - Each exported function is modelled as one call that runs up to the
      point where its promise settles.  Work that an un-awaited [async]
      callback does after its first [await] is recorded as pending. *)

From Equations Require Import Equations.
From Stdlib Require Import Ascii String List Bool Arith NArith Lia Sorted.
Import ListNotations.

(* ===================================================================== *)
(** * Strings *)
(* ===================================================================== *)

Definition str := list ascii.

(** String literals of the source. *)
Definition lit (s : string) : str := list_ascii_of_string s.

Definition NL : ascii := ascii_of_nat 10.
Definition CR : ascii := ascii_of_nat 13.

Fixpoint str_eqb (a b : str) : bool :=
  match a, b with
  | [], [] => true
  | x :: a', y :: b' => Ascii.eqb x y && str_eqb a' b'
  | _, _ => false
  end.

Definition in_range (lo hi c : ascii) : bool :=
  (nat_of_ascii lo <=? nat_of_ascii c) && (nat_of_ascii c <=? nat_of_ascii hi).

(** The bracket expressions of the source: [a-z], [A-Z], [0-9] and their
    unions. *)
Definition is_lower (c : ascii) : bool := in_range "a" "z" c.
Definition is_upper (c : ascii) : bool := in_range "A" "Z" c.
Definition is_digit (c : ascii) : bool := in_range "0" "9" c.
Definition is_alpha (c : ascii) : bool := is_lower c || is_upper c.
Definition is_alnum (c : ascii) : bool := is_alpha c || is_digit c.

(** [String.prototype.toUpperCase]. *)
Definition upcase (c : ascii) : ascii :=
  if is_lower c then ascii_of_nat (nat_of_ascii c - 32) else c.

Definition toUpperCase (s : str) : str := map upcase s.

(** [s.split(sep)] for a one-character separator: never empty, and the
    empty string splits into one empty piece. *)
Fixpoint split (sep : ascii) (s : str) : list str :=
  match s with
  | [] => [[]]
  | c :: s' =>
      if Ascii.eqb c sep then [] :: split sep s'
      else match split sep s' with
           | [] => [[c]]
           | w :: ws => (c :: w) :: ws
           end
  end.

(** [String(x)] used as a predicate: a string is truthy when not empty. *)
Definition truthy_string (s : str) : bool :=
  match s with [] => false | _ => true end.

(** [s.replace(/[...]/g, '')] for a one-character class: every character of
    the class is deleted. *)
Definition replace_class_with_empty (cls : ascii -> bool) (s : str) : str :=
  filter (fun c => negb (cls c)) s.

(** [arr.includes(x)] on an array of strings. *)
Definition includes (arr : list str) (x : str) : bool := existsb (str_eqb x) arr.

(** [new Set(arr)] followed by the spread [[...set]]: a JavaScript [Set]
    iterates in insertion order and [add] ignores a value already present. *)
Definition Set_add (s : list str) (x : str) : list str :=
  if includes s x then s else s ++ [x].

Definition new_Set (arr : list str) : list str := fold_left Set_add arr [].

(** Is [m] a contiguous part of [s]? *)
Definition substring_of (m s : str) : Prop :=
  exists pre post, s = pre ++ m ++ post.

(* ===================================================================== *)
(** * Regular expressions *)
(* ===================================================================== *)

Inductive regex : Type :=
| Void : regex
| Eps : regex
| Class (p : ascii -> bool) : regex
| Seq (r1 r2 : regex) : regex
| Alt (r1 r2 : regex) : regex
| Star (r : regex) : regex.

Definition Plus (r : regex) : regex := Seq r (Star r).
Definition Chr (c : ascii) : regex := Class (Ascii.eqb c).

(** The language of a regular expression. *)
Inductive Matches : regex -> str -> Prop :=
| M_eps : Matches Eps []
| M_class p c : p c = true -> Matches (Class p) [c]
| M_seq r1 r2 s1 s2 :
    Matches r1 s1 -> Matches r2 s2 -> Matches (Seq r1 r2) (s1 ++ s2)
| M_alt_l r1 r2 s : Matches r1 s -> Matches (Alt r1 r2) s
| M_alt_r r1 r2 s : Matches r2 s -> Matches (Alt r1 r2) s
| M_star_nil r : Matches (Star r) []
| M_star_app r s1 s2 :
    Matches r s1 -> Matches (Star r) s2 -> Matches (Star r) (s1 ++ s2).
Arguments M_class {p c}.
Arguments M_seq {r1 r2 s1 s2}.
Arguments M_alt_l {r1 r2 s}.
Arguments M_alt_r {r1 r2 s}.
Arguments M_star_app {r s1 s2}.

Fixpoint nullable (r : regex) : bool :=
  match r with
  | Void => false
  | Eps => true
  | Class _ => false
  | Seq r1 r2 => nullable r1 && nullable r2
  | Alt r1 r2 => nullable r1 || nullable r2
  | Star _ => true
  end.

Fixpoint deriv (c : ascii) (r : regex) : regex :=
  match r with
  | Void => Void
  | Eps => Void
  | Class p => if p c then Eps else Void
  | Seq r1 r2 =>
      if nullable r1 then Alt (Seq (deriv c r1) r2) (deriv c r2)
      else Seq (deriv c r1) r2
  | Alt r1 r2 => Alt (deriv c r1) (deriv c r2)
  | Star r1 => Seq (deriv c r1) (Star r1)
  end.

(** Does the whole of [s] match [r]? *)
Fixpoint matchb (r : regex) (s : str) : bool :=
  match s with
  | [] => nullable r
  | c :: s' => matchb (deriv c r) s'
  end.

(** Does some prefix of [s] match [r]? *)
Fixpoint prefix_match (r : regex) (s : str) : bool :=
  nullable r ||
  match s with
  | [] => false
  | c :: s' => prefix_match (deriv c r) s'
  end.

(** Does some contiguous part of [s] match [r]? *)
Fixpoint search (r : regex) (s : str) : bool :=
  prefix_match r s ||
  match s with
  | [] => false
  | _ :: s' => search r s'
  end.

(** Length of the longest prefix of [s] that matches [r], if any does. *)
Fixpoint longest (r : regex) (s : str) : option nat :=
  match s with
  | [] => if nullable r then Some 0 else None
  | c :: s' =>
      match longest (deriv c r) s' with
      | Some n => Some (S n)
      | None => if nullable r then Some 0 else None
      end
  end.

(** A JavaScript regular-expression literal: an optional [^] at the start
    and a body.  None of the literals of the module has the [m] flag, so
    [^] is the start of the input. *)
Record RegExp : Type := mkRegExp { anchored : bool; body : regex }.

(** [regex.test(s)]. *)
Definition RegExp_test (re : RegExp) (s : str) : bool :=
  if anchored re then prefix_match (body re) s else search (body re) s.

(** Truthiness of [s.match(re)] for a global [re]: [match] gives [null]
    when nothing matches and a non-empty array otherwise. *)
Definition match_truthy (re : RegExp) (s : str) : bool := RegExp_test re s.

(** The JavaScript [.]: any character but a line terminator. *)
Definition not_line_terminator (c : ascii) : bool :=
  negb (Ascii.eqb c NL || Ascii.eqb c CR).

Definition js_dot : regex := Class not_line_terminator.

(* ===================================================================== *)
(** * The shell pipeline of findRelatedJiraTicket *)
(* ===================================================================== *)

(** [grep -o] prints, for each input line, every non-empty match, scanning
    from the left and taking the longest match at the leftmost position;
    the scan resumes right after a match. *)
Equations? grep_line (r : regex) (s : str) : list str by wf (length s) lt :=
  grep_line r [] := [];
  grep_line r (c :: s') with longest r (c :: s') := {
    | Some (S n) => firstn (S n) (c :: s') :: grep_line r (skipn n s');
    | _ => grep_line r s' }.
Proof. all: try rewrite length_skipn; simpl; lia. Qed.

Definition grep_o (r : regex) (text : str) : list str :=
  flat_map (grep_line r) (split NL text).

(** Byte order, the collation of [sort] in the POSIX locale. *)
Definition str_compare : str -> str -> comparison := list_compare Ascii.compare.
Definition str_lt (a b : str) : Prop := str_compare a b = Lt.

(** [sort -u]: the distinct lines in increasing order. *)
Fixpoint insert_u (x : str) (l : list str) : list str :=
  match l with
  | [] => [x]
  | y :: l' =>
      match str_compare x y with
      | Lt => x :: l
      | Eq => l
      | Gt => y :: insert_u x l'
      end
  end.

Definition sort_u (lines : list str) : list str := fold_right insert_u [] lines.

(** Lines written to a pipe: each one ends with a newline. *)
Definition unlines (lines : list str) : str :=
  flat_map (fun l => l ++ [NL]) lines.

(** The basic regular expression ['[a-zA-Z]\+-[0-9]\+'] given to [grep]. *)
Definition ticket_bre : regex :=
  Seq (Plus (Class is_alpha)) (Seq (Chr "-") (Plus (Class is_digit))).

(** The words of the ticket pattern, spelled out: letters, a hyphen,
    digits. *)
Definition ticket_shape (k : str) : Prop :=
  exists letters digits,
    k = letters ++ "-"%char :: digits /\
    letters <> [] /\ forallb is_alpha letters = true /\
    digits <> [] /\ forallb is_digit digits = true.

(** [... | grep -e '[a-zA-Z]\+-[0-9]\+' -o | sort -u], applied to the text
    that [git log --pretty=oneline --no-merges a..b] prints.  The exit
    status of a pipeline is that of [sort], so [exec] resolves also when
    [grep] selects nothing. *)
Definition pipeline_stdout (log_text : str) : str :=
  unlines (sort_u (grep_o ticket_bre log_text)).

(* ===================================================================== *)
(** * JavaScript values, exceptions and promises *)
(* ===================================================================== *)

#[local] Set Warnings "-register-all".

(** The values that cross the module: [undefined], [null], strings and
    plain objects.  Numbers (run number, run id) only ever reach template
    literals here and are carried as their decimal text. *)
Inductive value : Type :=
| VUndefined : value
| VNull : value
| VStr (s : str) : value
| VObj (fields : list (str * value)) : value.

Inductive exn : Type :=
| Error (msg : str) : exn          (* [new Error(msg)] *)
| TypeError (msg : str) : exn      (* raised by the language itself *)
| Failure (reason : value) : exn.  (* a collaborator's rejection *)

(** A settled promise. *)
Inductive promise (A : Type) : Type :=
| Resolved (a : A) : promise A
| Rejected (e : exn) : promise A.
Arguments Resolved {A} a.
Arguments Rejected {A} e.

(** How a call ends. *)
Inductive outcome (A : Type) : Type :=
| Return (a : A) : outcome A
| Throw (e : exn) : outcome A.
Arguments Return {A} a.
Arguments Throw {A} e.

(** Interpolation in a template literal. *)
Definition ToString (v : value) : str :=
  match v with
  | VUndefined => lit "undefined"
  | VNull => lit "null"
  | VStr s => s
  | VObj _ => lit "[object Object]"
  end.

Fixpoint lookup (name : str) (fields : list (str * value)) : value :=
  match fields with
  | [] => VUndefined
  | (k, v) :: rest => if str_eqb k name then v else lookup name rest
  end.

(** Property read [v.name]. *)
Definition get_prop (v : value) (name : str) : outcome value :=
  match v with
  | VUndefined | VNull =>
      Throw (TypeError (lit "Cannot read properties of " ++ ToString v))
  | VStr _ => Return VUndefined
  | VObj fields => Return (lookup name fields)
  end.

(** Strict equality of values that are compared in the module (strings
    against array elements, as [includes] does). *)
Definition value_is_str (x : str) (v : value) : bool :=
  match v with
  | VStr s => str_eqb x s
  | _ => false
  end.

(** [arr.includes(x)] for a string [x] and an array of values. *)
Definition includes_str (arr : list value) (x : str) : bool :=
  existsb (value_is_str x) arr.

(** [!n] for a number, and [b > 0] for a boolean (converted to 1 or 0). *)
Definition js_not_number (n : nat) : bool := n =? 0.
Definition js_bool_gt_0 (b : bool) : bool := 0 <? (if b then 1 else 0).

(* ===================================================================== *)
(** * The world around the module *)
(* ===================================================================== *)

Definition stream := nat.

Inductive http_body : Type :=
| BodyFields (fields : list (str * value)) : http_body
| BodyStream (h : stream) : http_body.

Record request : Type := mkRequest {
  req_method : str;
  req_url : str;
  req_data : http_body;
  req_headers : list (str * str) }.

(** The payload of [jira.addNewIssue]. *)
Record NewIssue : Type := mkNewIssue {
  fields_project_key : str;
  fields_summary : str;
  fields_description : str;
  fields_issuetype_id : N }.

(** The payload of [jira.updateIssue]: one issue link to add. *)
Record IssueLink : Type := mkIssueLink {
  link_type_name : str;
  link_type_inward : str;
  link_type_outward : str;
  link_inwardIssue_key : value }.

(** The payload of [jira.transitionIssue]. *)
Record IssueTransition : Type := mkIssueTransition { transition_id : str }.

(** What is written with [console.log] and [console.error]. *)
Inductive log_arg : Type :=
| LStr (s : str) : log_arg
| LErr (e : exn) : log_arg
| LArr (l : list str) : log_arg
| LJson (prefix : str) (v : value) : log_arg.  (* [prefix] then [JSON.stringify(v)] *)

Inductive event : Type :=
| console_log (a : log_arg)
| console_error (a : log_arg)
| fs_readdirSync (dir : str)
| fs_createReadStream (path : str) (h : stream)
| exec (command : str)
| needle (req : request)
| jira_addNewIssue (issue : NewIssue)
| jira_listProjects
| jira_updateIssue (ticket : str) (update : IssueLink)
| jira_addAttachmentOnIssue (ticket : str) (file : stream)
| jira_addCommentAdvanced (ticket : str) (comment_body : str)
| unhandled_rejection (e : exn)
| jira_transitionIssue (ticket : value) (transition : IssueTransition).

(** The answers of the collaborators during one call. *)
Record World : Type := mkWorld {
  process_env : str -> value;
  readdir : str -> outcome (list str);
  git_log_oneline : str -> str -> str;   (* [git log --pretty=oneline --no-merges a..b] *)
  addNewIssue : NewIssue -> promise value;
  listProjects : promise (list value);
  needle_response : request -> promise value }.

(** The work left after the first [await] of a callback whose promise
    nobody awaits. *)
Inductive continuation : Type :=
| AfterImport (xmlFile : str)
| AfterLink (ticket : str) (jiraExecutionTicket : value)
| AfterAttach (ticket : str)
| AfterComment (ticket : str).

(** The module-level [let] variables; [undefined] until first assigned. *)
Record Module : Type := mkModule {
  xmlReportFiles : option (list str);
  xrayToken : value;
  verifiedJiraTicketsList : option (list str);
  jiraProjectKeysArray : option (list value);
  branchToCompare : value;
  branchName : value }.

Definition projectKey : str := lit "DEMO".

Record State : Type := mkState {
  vars : Module;
  trace : list event;
  next_stream : stream;
  pending : list continuation }.

Definition fresh_module : Module :=
  mkModule None VUndefined None None VUndefined VUndefined.

Definition initial : State := mkState fresh_module [] 0 [].

(* ===================================================================== *)
(** * A monad for state, trace and exceptions *)
(* ===================================================================== *)

Definition M (A : Type) : Type := State -> outcome A * State.

Definition ret {A} (a : A) : M A := fun st => (Return a, st).

Definition throw {A} (e : exn) : M A := fun st => (Throw e, st).

Definition bind {A B} (m : M A) (k : A -> M B) : M B :=
  fun st =>
    match m st with
    | (Return a, st') => k a st'
    | (Throw e, st') => (Throw e, st')
    end.

Notation "x <- m ;; k" := (bind m (fun x => k))
  (at level 61, m at next level, right associativity).
Notation "m ;; k" := (bind m (fun _ => k))
  (at level 61, right associativity).

(** [try { body } catch (err) { handler }]. *)
Definition try_catch {A} (body : M A) (handler : exn -> M A) : M A :=
  fun st =>
    match body st with
    | (Return a, st') => (Return a, st')
    | (Throw e, st') => handler e st'
    end.

Definition lift {A} (o : outcome A) : M A := fun st => (o, st).

Definition emit (e : event) : M unit :=
  fun st => (Return tt, mkState (vars st) (trace st ++ [e]) (next_stream st) (pending st)).

Definition read {A} (f : Module -> A) : M A := fun st => (Return (f (vars st)), st).

Definition write (f : Module -> Module) : M unit :=
  fun st => (Return tt, mkState (f (vars st)) (trace st) (next_stream st) (pending st)).

(** [await p] for a promise that the world settles. *)
Definition await {A} (p : promise A) : M A :=
  match p with
  | Resolved a => ret a
  | Rejected e => throw e
  end.

(** [p.then(on_ok).catch(on_err)]. *)
Definition then_catch {A} (p : promise A) (on_ok : A -> M unit) (on_err : exn -> M unit) : M unit :=
  try_catch (a <- await p ;; on_ok a) on_err.

(** A [for] loop over the elements of an array; a [throw] in the body
    leaves the loop. *)
Fixpoint for_ {A} (l : list A) (body : A -> M unit) : M unit :=
  match l with
  | [] => ret tt
  | x :: l' => body x ;; for_ l' body
  end.

(** A call of an [async] function whose promise is dropped: an exception
    of the callback rejects that promise and reaches nobody. *)
Definition async_call (m : M unit) : M unit :=
  try_catch m (fun e => emit (unhandled_rejection e)).

(** [arr.forEach(async (x) => ...)]. *)
Definition forEach_async {A} (l : list A) (callback : A -> M unit) : M unit :=
  for_ l (fun x => async_call (callback x)).

(** The callback stops at its first [await]; the rest is left pending. *)
Definition suspend (k : continuation) : M unit :=
  fun st => (Return tt, mkState (vars st) (trace st) (next_stream st) (pending st ++ [k])).

(** [fs.createReadStream(path)]: a new stream object each time. *)
Definition createReadStream (path : str) : M stream :=
  fun st =>
    let h := next_stream st in
    (Return h, mkState (vars st) (trace st ++ [fs_createReadStream path h]) (S h) (pending st)).

(** [arr.push(x)] on a module-level array. *)
Definition push {A} (get : Module -> option (list A))
    (set : option (list A) -> Module -> Module) (x : A) : M unit :=
  arr <- read get ;;
  match arr with
  | Some l => write (set (Some (l ++ [x])))
  | None => throw (TypeError (lit "Cannot read properties of undefined"))
  end.

(** Reading a module-level array to iterate over it or to return it. *)
Definition read_array {A} (get : Module -> option (list A)) : M (list A) :=
  arr <- read get ;;
  match arr with
  | Some l => ret l
  | None => throw (TypeError (lit "Cannot read properties of undefined"))
  end.

Definition set_xmlReportFiles (v : option (list str)) (m : Module) : Module :=
  mkModule v (xrayToken m) (verifiedJiraTicketsList m) (jiraProjectKeysArray m)
    (branchToCompare m) (branchName m).
Definition set_xrayToken (v : value) (m : Module) : Module :=
  mkModule (xmlReportFiles m) v (verifiedJiraTicketsList m) (jiraProjectKeysArray m)
    (branchToCompare m) (branchName m).
Definition set_verifiedJiraTicketsList (v : option (list str)) (m : Module) : Module :=
  mkModule (xmlReportFiles m) (xrayToken m) v (jiraProjectKeysArray m)
    (branchToCompare m) (branchName m).
Definition set_jiraProjectKeysArray (v : option (list value)) (m : Module) : Module :=
  mkModule (xmlReportFiles m) (xrayToken m) (verifiedJiraTicketsList m) v
    (branchToCompare m) (branchName m).
Definition set_branchToCompare (v : value) (m : Module) : Module :=
  mkModule (xmlReportFiles m) (xrayToken m) (verifiedJiraTicketsList m)
    (jiraProjectKeysArray m) v (branchName m).
Definition set_branchName (v : value) (m : Module) : Module :=
  mkModule (xmlReportFiles m) (xrayToken m) (verifiedJiraTicketsList m)
    (jiraProjectKeysArray m) (branchToCompare m) v.

(* ===================================================================== *)
(** * The functions of jira-helper.js *)
(* ===================================================================== *)

Definition cat (parts : list str) : str := concat parts.

(** ** createJiraTestExecutionTicket *)

Definition execution_issue (githubRepo githubRun env actor githubRunId branchName : value)
  : NewIssue :=
  mkNewIssue projectKey
    (cat [lit "Automated test run for "; ToString githubRepo;
          lit ", github run number: #"; ToString githubRun;
          lit " | Env: "; ToString env])
    (cat [lit "Automated test results executed for "; ToString githubRepo;
          lit " on branch "; ToString branchName; lit " by "; ToString actor; lit ".";
          [NL]; lit "        Click https://github.com/"; ToString githubRepo;
          lit "/actions/runs/"; ToString githubRunId;
          lit " to see the Github Action workflow summary."])
    10008%N.

Definition createJiraTestExecutionTicket (w : World)
    (githubRepo githubRun env actor githubRunId branchName : value) : M value :=
  try_catch
    (let issueObject :=
       execution_issue githubRepo githubRun env actor githubRunId branchName in
     emit (jira_addNewIssue issueObject) ;;
     issue <- await (addNewIssue w issueObject) ;;
     testExecutionKey <- lift (get_prop issue (lit "key")) ;;
     ret testExecutionKey)
    (fun err =>
       emit (console_error (LErr err)) ;;
       ret VNull).

(** ** listXmlReports *)

(** [new RegExp(/^.*.xml/)]: the dot before [xml] is not escaped. *)
Definition xml_regex : RegExp :=
  mkRegExp true
    (Seq (Star js_dot) (Seq js_dot (Seq (Chr "x") (Seq (Chr "m") (Chr "l"))))).

(** The body of the loop of lines 73 to 77. *)
Definition keep_if_xml (regex : RegExp) (file : str) : M unit :=
  if RegExp_test regex file
  then push xmlReportFiles set_xmlReportFiles file
  else ret tt.

Definition listXmlReports (w : World) (dir : str) : M (list str) :=
  write (set_xmlReportFiles (Some [])) ;;
  emit (fs_readdirSync dir) ;;
  files <- lift (readdir w dir) ;;
  let regex := xml_regex in
  for_ files (keep_if_xml regex) ;;
  read_array xmlReportFiles.

(** ** importXmlDataToXray *)

Definition XRAY_CLOUD_URL (w : World) : str := ToString (process_env w (lit "XRAY_CLOUD_URL")).

Definition authenticate_request (w : World) : request :=
  mkRequest (lit "POST")
    (XRAY_CLOUD_URL w ++ lit "/api/v2/authenticate")
    (BodyFields [(lit "client_id", process_env w (lit "XRAY_CLIENT_ID"));
                 (lit "client_secret", process_env w (lit "XRAY_CLIENT_SECRET"))])
    [(lit "content-type", lit "application/json")].

Definition import_url (w : World) (testExecutionKey : value) : str :=
  cat [XRAY_CLOUD_URL w; lit "/api/v2/import/execution/junit?projectKey="; projectKey;
       lit "&testExecKey="; ToString testExecutionKey].

Definition import_request (w : World) (testExecutionKey token : value) (xmlBodyString : stream)
  : request :=
  mkRequest (lit "POST")
    (import_url w testExecutionKey)
    (BodyStream xmlBodyString)
    [(lit "Authorization", lit "Bearer " ++ ToString token);
     (lit "content-type", lit "text/xml")].

(** The callback of line 110 up to its [await]. *)
Definition import_callback (w : World) (dir : str) (testExecutionKey : value)
    (xmlFile : str) : M unit :=
  xmlBodyString <- createReadStream (cat [dir; lit "/"; xmlFile]) ;;
  token <- read xrayToken ;;
  emit (needle (import_request w testExecutionKey token xmlBodyString)) ;;
  suspend (AfterImport xmlFile).

(** Lines 91 to 108: the authentication exchange. *)
Definition authenticate (w : World) : M unit :=
  emit (needle (authenticate_request w)) ;;
  then_catch (needle_response w (authenticate_request w))
    (fun res =>
       body <- lift (get_prop res (lit "body")) ;;
       emit (console_log (LStr (lit "Generated Xray token => " ++ ToString body))) ;;
       write (set_xrayToken body))
    (fun error => emit (console_log (LErr error))).

Definition importXmlDataToXray (w : World) (dir : str) (testExecutionKey : value) : M unit :=
  _ <- listXmlReports w dir ;;
  authenticate w ;;
  files <- read_array xmlReportFiles ;;
  forEach_async files (import_callback w dir testExecutionKey).

(** The rest of the import callback, once its request has settled. *)
Definition after_import (xmlFile : str) (response : promise value) : M unit :=
  then_catch response
    (fun res =>
       body <- lift (get_prop res (lit "body")) ;;
       emit (console_log (LJson (lit "XRAY RESPONSE => ") body)))
    (fun error => emit (console_log (LErr error))) ;;
  emit (console_log (LStr xmlFile)).

(** ** updateTestExecutionTicketStatus *)

(** The answer of the tracker to [jira.transitionIssue] is the parameter
    [transitionIssue]; the call itself is an event of the trace. *)
Definition updateTestExecutionTicketStatus
    (transitionIssue : value -> IssueTransition -> promise value)
    (testExecutionKey : value) : M unit :=
  try_catch
    (let issueTransitionBody := mkIssueTransition (lit "31") in
     emit (jira_transitionIssue testExecutionKey issueTransitionBody) ;;
     _ <- await (transitionIssue testExecutionKey issueTransitionBody) ;;
     emit (console_log (LStr (lit "Successfully set status to Done for "
                              ++ ToString testExecutionKey))))
    (fun err => emit (console_error (LErr err))).

(** ** findRelatedJiraTicket *)

Definition git_command (branchToCompare branchName : str) : str :=
  cat [lit "git log --pretty=oneline --no-merges "; branchToCompare; lit ".."; branchName;
       lit " | grep -e '[a-zA-Z]\+-[0-9]\+' -o | sort -u"].

(** [/([a-zA-Z][a-zA-Z0-9]+-[0-9]+)/g] *)
Definition strict_regex : RegExp :=
  mkRegExp false
    (Seq (Class is_alpha)
       (Seq (Plus (Class is_alnum)) (Seq (Chr "-") (Plus (Class is_digit))))).

(** [/[^a-zA-Z]/g] *)
Definition non_alpha (c : ascii) : bool := negb (is_alpha c).

(** Lines 169 and 170: from the output of the pipeline to the candidates. *)
Definition initial_tickets (jiraTickets : str) : list str :=
  let tickets := map toUpperCase (filter truthy_string (split NL jiraTickets)) in
  new_Set tickets.

Definition not_found : exn := Error (lit "Could not find related Jira ticket").

(** The condition of line 182 for one candidate. *)
Definition accepts (keys : list value) (ticket : str) : bool :=
  let extractedKey := fun _ : unit => replace_class_with_empty non_alpha ticket in
  match_truthy strict_regex ticket && includes_str keys (extractedKey tt).

(** The verification loop of lines 180 to 187. *)
Definition verify_ticket (ticket : str) : M unit :=
  keys <- read_array jiraProjectKeysArray ;;
  if accepts keys ticket
  then push verifiedJiraTicketsList set_verifiedJiraTicketsList ticket
  else throw not_found.

Definition verify_tickets (initialJiraTicketsList : list str) : M unit :=
  for_ initialJiraTicketsList verify_ticket.

(** Lines 175 to 177: the callback is [async] but never awaits, so each
    key is pushed at once; a project without readable [key] rejects the
    callback's promise and is passed over. *)
Definition push_project_key (item : value) : M unit :=
  key <- lift (get_prop item (lit "key")) ;;
  push jiraProjectKeysArray set_jiraProjectKeysArray key.

Definition collect_project_keys (jiraProjects : list value) : M unit :=
  forEach_async jiraProjects push_project_key.

Definition findRelatedJiraTicket (w : World)
    (currentBranchToCompare currentBranchName : value) (executedFromCI : bool)
  : M (list str) :=
  write (set_verifiedJiraTicketsList (Some [])) ;;
  (if executedFromCI
   then write (set_branchToCompare (VStr (lit "origin/" ++ ToString currentBranchToCompare))) ;;
        write (set_branchName (VStr (lit "origin/" ++ ToString currentBranchName)))
   else write (set_branchToCompare currentBranchToCompare) ;;
        write (set_branchName currentBranchName)) ;;
  base <- read branchToCompare ;;
  head <- read branchName ;;
  emit (exec (git_command (ToString base) (ToString head))) ;;
  let jiraTickets := pipeline_stdout (git_log_oneline w (ToString base) (ToString head)) in
  let initialJiraTicketsList := initial_tickets jiraTickets in
  write (set_jiraProjectKeysArray (Some [])) ;;
  emit jira_listProjects ;;
  jiraProjects <- await (listProjects w) ;;
  collect_project_keys jiraProjects ;;
  verify_tickets initialJiraTicketsList ;;
  read_array verifiedJiraTicketsList.

(** The promise of [exec] at line 168 can also reject: the shell cannot be
    started, the last command of the pipeline fails, or the output is
    longer than [maxBuffer].  [findRelatedJiraTicket] above is the call
    whose command resolves with the output of the pipeline.  Here the
    settled promise is given by [exec_answer], for each command line the
    [stdout] of the answer or the rejection; [await] throws the latter and
    nothing in the function catches it. *)
Definition findRelatedJiraTicket_exec (exec_answer : str -> promise str) (w : World)
    (currentBranchToCompare currentBranchName : value) (executedFromCI : bool)
  : M (list str) :=
  write (set_verifiedJiraTicketsList (Some [])) ;;
  (if executedFromCI
   then write (set_branchToCompare (VStr (lit "origin/" ++ ToString currentBranchToCompare))) ;;
        write (set_branchName (VStr (lit "origin/" ++ ToString currentBranchName)))
   else write (set_branchToCompare currentBranchToCompare) ;;
        write (set_branchName currentBranchName)) ;;
  base <- read branchToCompare ;;
  head <- read branchName ;;
  let command := git_command (ToString base) (ToString head) in
  emit (exec command) ;;
  jiraTickets <- await (exec_answer command) ;;
  let initialJiraTicketsList := initial_tickets jiraTickets in
  write (set_jiraProjectKeysArray (Some [])) ;;
  emit jira_listProjects ;;
  jiraProjects <- await (listProjects w) ;;
  collect_project_keys jiraProjects ;;
  verify_tickets initialJiraTicketsList ;;
  read_array verifiedJiraTicketsList.

(** ** linkTestExecutionResults *)

Definition link_update (jiraExecutionTicket : value) : IssueLink :=
  mkIssueLink (lit "Test") (lit "is tested by") (lit "tests") jiraExecutionTicket.

Definition no_related_message (jiraExecutionTicket : value) : str :=
  cat [lit "There are no related tickets where the test execution can be linked, to see test results just go";
       [NL]; lit "    directly here: "; ToString jiraExecutionTicket].

(** The callback of line 223 up to its [await]. *)
Definition link_callback (issueObject : IssueLink) (jiraExecutionTicket : value)
    (ticket : str) : M unit :=
  emit (jira_updateIssue ticket issueObject) ;;
  suspend (AfterLink ticket jiraExecutionTicket).

Definition linkTestExecutionResults (relatedJiraTickets : list str)
    (jiraExecutionTicket : value) : M unit :=
  let issueObject := link_update jiraExecutionTicket in
  (if js_bool_gt_0 (js_not_number (length relatedJiraTickets))
   then emit (console_log (LStr (no_related_message jiraExecutionTicket)))
   else ret tt) ;;
  try_catch
    (forEach_async relatedJiraTickets (link_callback issueObject jiraExecutionTicket))
    (fun err => emit (console_log (LErr err))).

(** The rest of the link callback: nothing catches a rejection there. *)
Definition after_link (ticket : str) (jiraExecutionTicket : value)
    (response : promise value) : M unit :=
  _ <- await response ;;
  emit (console_log (LStr (cat [lit "Ticket: "; ticket;
          lit " has been successfully linked with tests results coming from ";
          ToString jiraExecutionTicket]))).

(** ** addInfoAboutExecution *)

Definition execution_comment (githubRepo currentBranchName env actor githubRunId reportLink : value)
  : str :=
  cat [lit "Automated test run has been executed for "; ToString githubRepo;
       lit " on branch "; ToString currentBranchName; lit " and "; ToString env;
       lit " environment by "; ToString actor; lit "."; [NL];
       lit "    Click https://github.com/"; ToString githubRepo; lit "/actions/runs/";
       ToString githubRunId; lit " to see the Github Action workflow summary,"; [NL];
       lit "    or here to see full report "; ToString reportLink].

(** The callbacks of lines 238 and 254 up to their [await]. *)
Definition attach_callback (reportStream : stream) (ticket : str) : M unit :=
  emit (jira_addAttachmentOnIssue ticket reportStream) ;;
  suspend (AfterAttach ticket).

Definition comment_callback (comment : str) (ticket : str) : M unit :=
  emit (jira_addCommentAdvanced ticket comment) ;;
  suspend (AfterComment ticket).

Definition addInfoAboutExecution (relatedJiraTickets : list str) (path : str)
    (githubRepo currentBranchName env actor githubRunId reportLink : value) : M unit :=
  emit (console_log (LArr relatedJiraTickets)) ;;
  reportStream <- createReadStream path ;;
  if js_bool_gt_0 (js_not_number (length relatedJiraTickets))
  then emit (console_log (LStr (lit "There are no related tickets where test report can be linked")))
  else
    forEach_async relatedJiraTickets (attach_callback reportStream) ;;
    let comment :=
      execution_comment githubRepo currentBranchName env actor githubRunId reportLink in
    forEach_async relatedJiraTickets (comment_callback comment).

(** The rest of the attachment callback, inside its [try]. *)
Definition log_attachment (ticket : str) (attachement : value) : M unit :=
  filename <- lift (get_prop attachement (lit "filename")) ;;
  emit (console_log (LStr (cat [lit "File "; ToString filename;
          lit " linked correctly to the ticket: "; ticket]))).

Definition after_attach (ticket : str) (response : promise (list value)) : M unit :=
  try_catch
    (attachements <- await response ;;
     forEach_async attachements (log_attachment ticket))
    (fun err => emit (console_log (LErr err))).

(** The rest of the comment callback, inside its [try]. *)
Definition after_comment (ticket : str) (response : promise value) : M unit :=
  try_catch
    (res <- await response ;;
     author <- lift (get_prop res (lit "author")) ;;
     displayName <- lift (get_prop author (lit "displayName")) ;;
     emit (console_log (LStr (cat [lit "Comment add to "; ticket; lit " by ";
             ToString displayName]))))
    (fun err => emit (console_log (LErr err))).

(* ===================================================================== *)
(** * Reading a run *)
(* ===================================================================== *)

(** The events a call adds to the trace are those after the ones that were
    already there. *)
Definition new_events (before after : State) : list event :=
  skipn (length (trace before)) (trace after).

Definition is_createReadStream (e : event) : bool :=
  match e with fs_createReadStream _ _ => true | _ => false end.

Definition is_addAttachment (e : event) : bool :=
  match e with jira_addAttachmentOnIssue _ _ => true | _ => false end.

Definition is_updateIssue (e : event) : bool :=
  match e with jira_updateIssue _ _ => true | _ => false end.

(** A project as the tracker lists it, and the keys that
    [collect_project_keys] gathers from an answer. *)
Definition project (key : str) : value := VObj [(lit "key", VStr key)].

Definition fetched_keys (jiraProjects : list value) : list value :=
  flat_map (fun item =>
              match get_prop item (lit "key") with
              | Return key => [key]
              | Throw _ => []
              end) jiraProjects.

(** The branch reference that reaches the command line. *)
Definition branch_ref (executedFromCI : bool) (branch : value) : str :=
  if executedFromCI then lit "origin/" ++ ToString branch else ToString branch.

(** Lines 168 to 170 as a function of the commit log text. *)
Definition extract_ticket_keys (log_text : str) : list str :=
  initial_tickets (pipeline_stdout log_text).

(** The commit log text and the candidates of one call. *)
Definition log_text_of (w : World) (currentBranchToCompare currentBranchName : value)
    (executedFromCI : bool) : str :=
  git_log_oneline w (branch_ref executedFromCI currentBranchToCompare)
    (branch_ref executedFromCI currentBranchName).

Definition candidates (w : World) (currentBranchToCompare currentBranchName : value)
    (executedFromCI : bool) : list str :=
  extract_ticket_keys (log_text_of w currentBranchToCompare currentBranchName executedFromCI).

(** [/[^a-zA-Z]/g] replaced by nothing: what line 181 calls the extracted
    key. *)
Definition alphabetic_prefix (ticket : str) : str :=
  replace_class_with_empty non_alpha ticket.

(** The events of the import loop for a list of files, the first stream
    being [h]. *)
Fixpoint import_events (w : World) (dir : str) (testExecutionKey token : value)
    (h : stream) (files : list str) : list event :=
  match files with
  | [] => []
  | xmlFile :: rest =>
      fs_createReadStream (cat [dir; lit "/"; xmlFile]) h ::
      needle (import_request w testExecutionKey token h) ::
      import_events w dir testExecutionKey token (S h) rest
  end.

(** The import requests of a trace, and their [Authorization] headers. *)
Definition import_requests (evs : list event) : list request :=
  flat_map (fun e =>
              match e with
              | needle (mkRequest m u (BodyStream h) hs) => [mkRequest m u (BodyStream h) hs]
              | _ => []
              end) evs.

Fixpoint header (name : str) (headers : list (str * str)) : option str :=
  match headers with
  | [] => None
  | (k, v) :: rest => if str_eqb k name then Some v else header name rest
  end.

Definition authorization (req : request) : option str :=
  header (lit "Authorization") (req_headers req).

(** The streams a trace opens, with their paths. *)
Definition opened_streams (evs : list event) : list (str * stream) :=
  flat_map (fun e =>
              match e with
              | fs_createReadStream path h => [(path, h)]
              | _ => []
              end) evs.

(** Worlds for the examples: only the listed answers matter. *)
Definition no_answer : exn := Failure VUndefined.

Definition example_world (files : list str) (log_text : str) (projects : list value)
    (authentication : promise value) : World :=
  mkWorld (fun _ => VStr (lit "https://xray.example"))
    (fun _ => Return files)
    (fun _ _ => log_text)
    (fun _ => Resolved (VObj [(lit "key", VStr (lit "DEMO-1"))]))
    (Resolved projects)
    (fun _ => authentication).

(** The property of the listXmlReports paragraph of the specification: the
    name contains [.xml]. *)
Fixpoint starts_with (p s : str) : bool :=
  match p, s with
  | [], _ => true
  | x :: p', y :: s' => Ascii.eqb x y && starts_with p' s'
  | _ :: _, [] => false
  end.

Fixpoint contains (p s : str) : bool :=
  starts_with p s ||
  match s with
  | [] => false
  | _ :: s' => contains p s'
  end.

Definition spec_is_xml_report (name : str) : bool := contains (lit ".xml") name.

(** The order that the extraction paragraph of the specification words:
    uppercased matches in the order of their first occurrence in the text. *)
Definition spec_first_occurrence_order (log_text : str) : list str :=
  new_Set (map toUpperCase (grep_o ticket_bre log_text)).

(** The worlds of the examples of the specification. *)
Definition demo3_world : World :=
  example_world [] (lit "abc demo-3 fix") [project (lit "DEMO")] (Rejected no_answer).

Definition other5_text : str :=
  lit "abc DEMO-12 fix" ++ [NL] ++ lit "def demo-12 fix" ++ [NL] ++ lit "ghi OTHER-5 x".

Definition other5_world : World :=
  example_world [] other5_text [project (lit "DEMO")] (Rejected no_answer).

Definition two_reports_world : World :=
  example_world [lit "a.xml"; lit "notes.txt"; lit "b.xml"] [] [] (Rejected no_answer).

(* ===================================================================== *)
(** * Further notions for reading a run *)
(* ===================================================================== *)

(** A string that ends, or begins, with a character of a class. *)
Definition ends_in (cls : ascii -> bool) (s : str) : Prop :=
  exists s' c, s = s' ++ [c] /\ cls c = true.

Definition begins_in (cls : ascii -> bool) (s : str) : Prop :=
  exists c s', s = c :: s' /\ cls c = true.

(** An occurrence of a ticket key in a text that is not part of a longer
    run: no letter right before it, no digit right after it. *)
Definition whole_key_at (pre m post : str) : Prop :=
  Matches ticket_bre m /\ ~ ends_in is_alpha pre /\ ~ begins_in is_digit post.

(** The errors of the project entries whose [key] cannot be read: each
    one rejects the promise of its callback. *)
Definition key_errors (jiraProjects : list value) : list exn :=
  flat_map (fun item =>
              match get_prop item (lit "key") with
              | Return _ => []
              | Throw e => [e]
              end) jiraProjects.

(** A project entry of the tracker's answer with the given key. *)
Definition lists_project (jiraProjects : list value) (key : str) : Prop :=
  exists item, In item jiraProjects /\ get_prop item (lit "key") = Return (VStr key).

(** The calls to the tracker among the events of a trace. *)
Definition is_tracker_call (e : event) : bool :=
  match e with
  | jira_addNewIssue _ | jira_listProjects | jira_updateIssue _ _
  | jira_addAttachmentOnIssue _ _ | jira_addCommentAdvanced _ _
  | jira_transitionIssue _ _ => true
  | _ => false
  end.

(** More worlds for examples. *)
Definition one_letter_world : World :=
  example_world [] (lit "abc a-1 fix") [project (lit "A")] (Rejected no_answer).

Definition no_key_world : World :=
  example_world [] (lit "abc fix typo") [project (lit "DEMO")] (Rejected no_answer).

Definition granted_world : World :=
  example_world [lit "a.xml"; lit "notes.txt"; lit "b.xml"] [] []
    (Resolved (VObj [(lit "body", VStr (lit "tok"))])).

Definition bodyless_world : World :=
  example_world [lit "a.xml"; lit "notes.txt"; lit "b.xml"] [] [] (Resolved VUndefined).

(** The answer of the add-on to wrong credentials: the request itself
    succeeds, and the promise resolves with status 401 and an error object
    as body. *)
Definition refusal_body : value :=
  VObj [(lit "error", VStr (lit "Authentication failed. Invalid client credentials!"))].

Definition refusal : value :=
  VObj [(lit "statusCode", VStr (lit "401")); (lit "body", refusal_body)].

Definition refused_world : World :=
  example_world [lit "a.xml"; lit "notes.txt"; lit "b.xml"] [] [] (Resolved refusal).

Definition uppercase_text : str :=
  lit "abc DEMO-12 fix" ++ [NL] ++ lit "ghi AB-5 x".

Definition failing_world : World :=
  mkWorld (fun _ => VStr (lit "https://xray.example"))
    (fun dir => if str_eqb dir (lit "reports") then Return [lit "a.xml"]
                else Throw (Error (lit "ENOENT")))
    (fun _ _ => [])
    (fun _ => Rejected no_answer)
    (Rejected no_answer)
    (fun _ => Rejected no_answer).

(* ===================================================================== *)
(** * Facts about strings *)
(* ===================================================================== *)

Lemma str_eqb_eq (a b : str) : str_eqb a b = true <-> a = b.
Proof.
  revert b; induction a as [|x a IH]; intros [|y b]; simpl; try easy.
  rewrite andb_true_iff, Ascii.eqb_eq, IH.
  split; [intros [-> ->]; reflexivity | intros E; inversion E; auto].
Qed.

Lemma str_eqb_refl (a : str) : str_eqb a a = true.
Proof. apply str_eqb_eq; reflexivity. Qed.

Lemma includes_In (arr : list str) (x : str) : includes arr x = true <-> In x arr.
Proof.
  unfold includes; rewrite existsb_exists; split.
  - intros (y & Hy & E); apply str_eqb_eq in E; subst; assumption.
  - intros H; exists x; split; [assumption | apply str_eqb_refl].
Qed.

Lemma includes_str_In (arr : list value) (x : str) :
  includes_str arr x = true <-> In (VStr x) arr.
Proof.
  unfold includes_str; rewrite existsb_exists; split.
  - intros (v & Hv & E); destruct v; simpl in E; try discriminate.
    apply str_eqb_eq in E; subst; assumption.
  - intros H; exists (VStr x); split; [assumption | apply str_eqb_refl].
Qed.

(* ===================================================================== *)
(** * The matcher decides the language *)
(* ===================================================================== *)

Lemma Matches_void_inv (s : str) : Matches Void s -> False.
Proof. inversion 1. Qed.

Lemma Matches_eps_inv (s : str) : Matches Eps s -> s = [].
Proof. inversion 1; reflexivity. Qed.

Lemma Matches_class_inv (p : ascii -> bool) (s : str) :
  Matches (Class p) s -> exists c, s = [c] /\ p c = true.
Proof. inversion 1; subst; eauto. Qed.

Lemma Matches_seq_inv (r1 r2 : regex) (s : str) :
  Matches (Seq r1 r2) s ->
  exists s1 s2, s = s1 ++ s2 /\ Matches r1 s1 /\ Matches r2 s2.
Proof. inversion 1; subst; eauto. Qed.

Lemma Matches_alt_inv (r1 r2 : regex) (s : str) :
  Matches (Alt r1 r2) s -> Matches r1 s \/ Matches r2 s.
Proof. inversion 1; subst; auto. Qed.

Create HintDb regex.
#[local] Hint Constructors Matches : regex.

Lemma nullable_Matches (r : regex) : nullable r = true <-> Matches r [].
Proof.
  induction r; simpl.
  - split; [discriminate | intros H; destruct (Matches_void_inv _ H)].
  - split; auto with regex.
  - split; [discriminate|].
    intros H; apply Matches_class_inv in H as (c & E & _); discriminate.
  - rewrite andb_true_iff, IHr1, IHr2; split.
    + intros [H1 H2]; exact (M_seq H1 H2).
    + intros H; apply Matches_seq_inv in H as (s1 & s2 & E & H1 & H2).
      symmetry in E; apply app_eq_nil in E as [-> ->]; auto.
  - rewrite orb_true_iff, IHr1, IHr2; split.
    + intros [H|H]; auto with regex.
    + apply Matches_alt_inv.
  - split; auto with regex.
Qed.

(** A non-empty word of a starred language starts with a non-empty word
    of the language itself. *)
Lemma Matches_star_cons (r : regex) (c : ascii) (s : str) :
  Matches (Star r) (c :: s) ->
  exists s1 s2, s = s1 ++ s2 /\ Matches r (c :: s1) /\ Matches (Star r) s2.
Proof.
  intros H; remember (Star r) as r' eqn:Er; remember (c :: s) as t eqn:Et.
  revert s Et; induction H as [| | | | | |r0 s1 s2 H1 _ H2 IH2]; intros u Et;
    try discriminate.
  injection Er as ->.
  destruct s1 as [|x s1]; simpl in Et.
  - apply IH2; auto.
  - injection Et as -> <-. exists s1, s2; auto.
Qed.

Lemma deriv_Matches (r : regex) (c : ascii) (s : str) :
  Matches (deriv c r) s <-> Matches r (c :: s).
Proof.
  revert s; induction r; intros s; simpl.
  - split; intros H; destruct (Matches_void_inv _ H).
  - split; intros H; [destruct (Matches_void_inv _ H)|].
    apply Matches_eps_inv in H; discriminate.
  - destruct (p c) eqn:Hp; split; intros H.
    + apply Matches_eps_inv in H as ->; auto with regex.
    + apply Matches_class_inv in H as (x & [= <- ->] & _); auto with regex.
    + destruct (Matches_void_inv _ H).
    + apply Matches_class_inv in H as (x & [= <- ->] & Hx); congruence.
  - assert (Hseq : Matches (Seq (deriv c r1) r2) s ->  Matches (Seq r1 r2) (c :: s)).
    { intros H; apply Matches_seq_inv in H as (s1 & s2 & -> & Ha & Hb).
      apply IHr1 in Ha. exact (M_seq Ha Hb). }
    destruct (nullable r1) eqn:N.
    + split.
      * intros H; apply Matches_alt_inv in H as [H|H]; [auto|].
        apply IHr2 in H. apply nullable_Matches in N. exact (M_seq N H).
      * intros H; apply Matches_seq_inv in H as (s1 & s2 & E & Ha & Hb).
        destruct s1 as [|x s1]; simpl in E.
        -- subst s2. apply M_alt_r, IHr2; assumption.
        -- injection E as <- ->. apply M_alt_l, M_seq; [apply IHr1|]; assumption.
    + split; [assumption|].
      intros H; apply Matches_seq_inv in H as (s1 & s2 & E & Ha & Hb).
      destruct s1 as [|x s1]; simpl in E.
      * apply nullable_Matches in Ha; congruence.
      * injection E as <- ->. apply M_seq; [apply IHr1|]; assumption.
  - split; intros H; apply Matches_alt_inv in H as [H|H];
      solve [apply M_alt_l, IHr1; assumption | apply M_alt_r, IHr2; assumption].
  - split.
    + intros H; apply Matches_seq_inv in H as (s1 & s2 & -> & Ha & Hb).
      apply IHr in Ha. exact (M_star_app Ha Hb).
    + intros H; apply Matches_star_cons in H as (s1 & s2 & -> & Ha & Hb).
      apply M_seq; [apply IHr|]; assumption.
Qed.

Lemma matchb_Matches (r : regex) (s : str) : matchb r s = true <-> Matches r s.
Proof.
  revert r; induction s as [|c s IH]; intros r; simpl.
  - apply nullable_Matches.
  - rewrite IH; apply deriv_Matches.
Qed.

Lemma prefix_match_Matches (r : regex) (s : str) :
  prefix_match r s = true <-> exists p q, s = p ++ q /\ Matches r p.
Proof.
  revert r; induction s as [|c s IH]; intros r; simpl.
  - rewrite orb_false_r, nullable_Matches; split.
    + intros H; exists [], []; auto.
    + intros (p & q & E & H). symmetry in E; apply app_eq_nil in E as [-> _]; assumption.
  - rewrite orb_true_iff, nullable_Matches, IH; split.
    + intros [H | (p & q & -> & H)].
      * exists [], (c :: s); auto.
      * exists (c :: p), q; split; [reflexivity | apply deriv_Matches; assumption].
    + intros (p & q & E & H); destruct p as [|x p]; simpl in E.
      * left; assumption.
      * injection E as <- ->. right; exists p, q; split; [reflexivity|].
        apply deriv_Matches; assumption.
Qed.

Lemma search_cons (r : regex) (c : ascii) (s : str) :
  search r (c :: s) = prefix_match r (c :: s) || search r s.
Proof. reflexivity. Qed.

Lemma search_Matches (r : regex) (s : str) :
  search r s = true <-> exists m, substring_of m s /\ Matches r m.
Proof.
  unfold substring_of; induction s as [|c s IH].
  - cbn; rewrite !orb_false_r, nullable_Matches; split.
    + intros H; exists []; split; [exists [], []; reflexivity | assumption].
    + intros (m & (pre & post & E) & H).
      symmetry in E; apply app_eq_nil in E as [_ E]; apply app_eq_nil in E as [-> _].
      assumption.
  - rewrite search_cons, orb_true_iff, prefix_match_Matches, IH; split.
    + intros [(p & q & E & H) | (m & (pre & post & ->) & H)].
      * exists p; split; [exists [], q; exact E | assumption].
      * exists m; split; [exists (c :: pre), post; reflexivity | assumption].
    + intros (m & (pre & post & E) & H); destruct pre as [|x pre]; simpl in E.
      * left; exists m, post; auto.
      * injection E as <- ->. right; exists m; split; [exists pre, post; reflexivity | assumption].
Qed.

Lemma longest_sound (r : regex) (s : str) (n : nat) :
  longest r s = Some n -> n <= length s /\ Matches r (firstn n s).
Proof.
  revert r n; induction s as [|c s IH]; intros r n; simpl.
  - destruct (nullable r) eqn:N; [|discriminate].
    intros [= <-]; split; [lia | apply nullable_Matches; assumption].
  - destruct (longest (deriv c r) s) as [k|] eqn:L.
    + intros [= <-]; apply IH in L as [Hk Hm]; split; [lia|].
      simpl; apply deriv_Matches; assumption.
    + destruct (nullable r) eqn:N; [|discriminate].
      intros [= <-]; split; [lia | apply nullable_Matches; assumption].
Qed.

(** Words of [p*] and [p+] for a character class [p]. *)
Lemma Matches_star_class (p : ascii -> bool) (s : str) :
  Matches (Star (Class p)) s <-> forallb p s = true.
Proof.
  split.
  - intros H; remember (Star (Class p)) as r eqn:Er.
    induction H as [| | | | | |r0 s1 s2 H1 _ H2 IH2]; try discriminate; [reflexivity|].
    injection Er as ->. apply Matches_class_inv in H1 as (c & -> & Hc); simpl.
    rewrite Hc; simpl; auto.
  - induction s as [|c s IH]; simpl; [constructor|].
    rewrite andb_true_iff; intros [Hc Hs].
    change (c :: s) with ([c] ++ s); constructor; [constructor|]; auto.
Qed.

Lemma Matches_plus_class (p : ascii -> bool) (s : str) :
  Matches (Plus (Class p)) s <-> s <> [] /\ forallb p s = true.
Proof.
  unfold Plus; split.
  - intros H; apply Matches_seq_inv in H as (s1 & s2 & -> & Ha & Hb).
    apply Matches_class_inv in Ha as (c & -> & Hc).
    apply Matches_star_class in Hb; simpl; rewrite Hc; split; [discriminate | assumption].
  - intros [Hne Hall]; destruct s as [|c s]; [congruence|].
    simpl in Hall; apply andb_true_iff in Hall as [Hc Hs].
    change (c :: s) with ([c] ++ s); constructor;
      [constructor | apply Matches_star_class]; assumption.
Qed.

Lemma Matches_chr (c : ascii) (s : str) : Matches (Chr c) s <-> s = [c].
Proof.
  unfold Chr; split.
  - intros H; apply Matches_class_inv in H as (x & -> & Hx).
    apply Ascii.eqb_eq in Hx; subst; reflexivity.
  - intros ->; constructor; apply Ascii.eqb_refl.
Qed.

(** The words of ['[a-zA-Z]\+-[0-9]\+']. *)
Lemma ticket_bre_shape (s : str) :
  Matches ticket_bre s <-> ticket_shape s.
Proof.
  unfold ticket_bre, ticket_shape; split.
  - intros H; apply Matches_seq_inv in H as (l & t & -> & Hl & Ht).
    apply Matches_seq_inv in Ht as (h & d & -> & Hh & Hd).
    apply Matches_chr in Hh; subst.
    apply Matches_plus_class in Hl as [? ?], Hd as [? ?].
    exists l, d; auto.
  - intros (l & d & -> & Hl & Hla & Hd & Hda).
    constructor; [apply Matches_plus_class; auto|].
    change ("-"%char :: d) with (["-"%char] ++ d).
    constructor; [apply Matches_chr; reflexivity | apply Matches_plus_class; auto].
Qed.

(* ===================================================================== *)
(** * The shell pipeline *)
(* ===================================================================== *)

Lemma substring_of_refl (s : str) : substring_of s s.
Proof. exists [], []; rewrite app_nil_r; reflexivity. Qed.

Lemma substring_of_trans (a b c : str) :
  substring_of a b -> substring_of b c -> substring_of a c.
Proof.
  intros (p & q & ->) (p' & q' & ->).
  exists (p' ++ p), (q ++ q'); rewrite <- !app_assoc; reflexivity.
Qed.

Lemma substring_of_cons (m s : str) (c : ascii) :
  substring_of m s -> substring_of m (c :: s).
Proof. intros (p & q & ->); exists (c :: p), q; reflexivity. Qed.

Lemma substring_of_firstn (n : nat) (s : str) : substring_of (firstn n s) s.
Proof. exists [], (skipn n s); simpl; symmetry; apply firstn_skipn. Qed.

Lemma substring_of_skipn (m s : str) (n : nat) :
  substring_of m (skipn n s) -> substring_of m s.
Proof.
  intros H; apply (substring_of_trans _ _ _ H).
  exists (firstn n s), []; rewrite app_nil_r; symmetry; apply firstn_skipn.
Qed.

(** Everything [grep -o] prints for a line is a non-empty part of the line
    that matches the pattern. *)
Lemma grep_line_sound (r : regex) (s m : str) :
  In m (grep_line r s) -> substring_of m s /\ Matches r m /\ m <> [].
Proof.
  funelim (grep_line r s); simp grep_line in *; rewrite ?Heq in *; simpl.
  1: intros [].
  all: try (intros H'; apply H in H' as (Hs & Hm & Hne);
            auto using substring_of_cons; fail).
  intros [<- | H'].
  - apply longest_sound in Heq as [_ Hm]. split; [|split].
    + apply (substring_of_firstn (S n) (c :: s')).
    + exact Hm.
    + discriminate.
  - apply H in H' as (Hs & Hm & Hne); split; [|auto].
    apply substring_of_cons, substring_of_skipn with n; assumption.
Qed.

(** The first piece of a split is a prefix, the others lie further on. *)
Lemma split_shape (sep : ascii) (s : str) :
  exists w ws, split sep s = w :: ws /\ (exists q, s = w ++ q) /\
               forall l, In l ws -> substring_of l s.
Proof.
  induction s as [|c s (w & ws & E & (q & Hq) & Hws)]; simpl.
  - exists [], []; repeat split; [exists []; reflexivity | intros l []].
  - destruct (Ascii.eqb c sep).
    + exists [], (split sep s); repeat split; [exists (c :: s); reflexivity|].
      rewrite E; intros l [<- | H]; apply substring_of_cons.
      * exists [], q; exact Hq.
      * apply Hws, H.
    + rewrite E; exists (c :: w), ws; repeat split.
      * exists q; simpl; rewrite <- Hq; reflexivity.
      * intros l H; apply substring_of_cons, Hws, H.
Qed.

Lemma split_parts (sep : ascii) (s l : str) :
  In l (split sep s) -> substring_of l s.
Proof.
  destruct (split_shape sep s) as (w & ws & -> & (q & Hq) & Hws).
  intros [<- | H]; [exists [], q; exact Hq | apply Hws, H].
Qed.

Lemma grep_o_sound (r : regex) (text m : str) :
  In m (grep_o r text) -> substring_of m text /\ Matches r m /\ m <> [].
Proof.
  unfold grep_o; rewrite in_flat_map; intros (line & Hl & Hm).
  apply grep_line_sound in Hm as (Hs & Hm & Hne); repeat split; auto.
  apply substring_of_trans with line; [assumption | apply split_parts with NL, Hl].
Qed.

(** Splitting what [unlines] wrote gives the lines back, and one empty
    piece after the last newline. *)
Lemma split_unlines (lines : list str) :
  Forall (fun l => ~ In NL l) lines ->
  split NL (unlines lines) = lines ++ [[]].
Proof.
  induction 1 as [|l lines Hl _ IH]; [reflexivity|].
  unfold unlines in *; simpl; rewrite <- app_assoc; simpl.
  induction l as [|c l IHl]; simpl.
  - rewrite IH; reflexivity.
  - destruct (Ascii.eqb c NL) eqn:E.
    + apply Ascii.eqb_eq in E; subst; exfalso; apply Hl; left; reflexivity.
    + rewrite IHl; [reflexivity | intros H; apply Hl; right; assumption].
Qed.

(** ** [sort -u] *)

Lemma ascii_compare_eq (x y : ascii) : Ascii.compare x y = Eq <-> x = y.
Proof.
  split; [apply Ascii.compare_eq_iff|].
  intros ->; unfold Ascii.compare; apply N.compare_refl.
Qed.

Lemma ascii_compare_opp (x y : ascii) : Ascii.compare y x = CompOpp (Ascii.compare x y).
Proof. apply Ascii.compare_antisym. Qed.

Lemma ascii_compare_trans (x y z : ascii) (c : comparison) :
  Ascii.compare x y = c -> Ascii.compare y z = c -> Ascii.compare x z = c.
Proof.
  unfold Ascii.compare; destruct c.
  - rewrite !N.compare_eq_iff; congruence.
  - rewrite !N.compare_lt_iff; lia.
  - rewrite !N.compare_gt_iff; lia.
Qed.

Lemma str_compare_eq (a b : str) : str_compare a b = Eq <-> a = b.
Proof. apply list_compare_refl, ascii_compare_eq. Qed.

Lemma str_compare_opp (a b : str) : str_compare b a = CompOpp (str_compare a b).
Proof. apply list_compare_antisym; [apply ascii_compare_eq | apply ascii_compare_opp]. Qed.

Lemma str_lt_trans (a b c : str) : str_lt a b -> str_lt b c -> str_lt a c.
Proof.
  apply list_compare_trans;
    [apply ascii_compare_eq | apply ascii_compare_trans | apply ascii_compare_opp].
Qed.

Lemma str_lt_irrefl (a : str) : ~ str_lt a a.
Proof.
  unfold str_lt; intros H.
  rewrite (proj2 (str_compare_eq a a) eq_refl) in H; discriminate.
Qed.

Lemma insert_u_In (x y : str) (l : list str) :
  In y (insert_u x l) <-> y = x \/ In y l.
Proof.
  induction l as [|z l IH]; simpl; [intuition|].
  destruct (str_compare x z) eqn:C; simpl.
  - apply str_compare_eq in C; subst; intuition.
  - intuition.
  - rewrite IH; intuition.
Qed.

Lemma insert_u_sorted (x : str) (l : list str) :
  StronglySorted str_lt l -> StronglySorted str_lt (insert_u x l).
Proof.
  induction 1 as [|z l Hs IH Hz]; simpl; [repeat constructor|].
  destruct (str_compare x z) eqn:C.
  - constructor; assumption.
  - constructor; [constructor; assumption|].
    constructor; [exact C|].
    eapply Forall_impl; [|exact Hz]; intros u Hu; exact (str_lt_trans _ _ _ C Hu).
  - constructor; [assumption|].
    apply Forall_forall; intros u Hu; apply insert_u_In in Hu as [-> | Hu].
    + unfold str_lt; rewrite str_compare_opp, C; reflexivity.
    + rewrite Forall_forall in Hz; auto.
Qed.

Lemma sort_u_In (l : list str) (x : str) : In x (sort_u l) <-> In x l.
Proof.
  induction l as [|y l IH]; simpl; [reflexivity|].
  rewrite insert_u_In, IH; intuition.
Qed.

Lemma sort_u_sorted (l : list str) : StronglySorted str_lt (sort_u l).
Proof.
  induction l as [|y l IH]; simpl; [constructor | apply insert_u_sorted, IH].
Qed.

(** ** [new Set] *)

Lemma Set_add_In (s : list str) (x y : str) :
  In y (Set_add s x) <-> In y s \/ y = x.
Proof.
  unfold Set_add; destruct (includes s x) eqn:E.
  - apply includes_In in E; split; [auto | intros [H | ->]; assumption].
  - rewrite in_app_iff; simpl; intuition.
Qed.

Lemma Set_add_NoDup (s : list str) (x : str) : NoDup s -> NoDup (Set_add s x).
Proof.
  unfold Set_add; destruct (includes s x) eqn:E; [auto|].
  intros H; apply NoDup_app; [assumption | repeat constructor; intros [] |].
  intros y Hy [<- | []].
  apply includes_In in Hy; congruence.
Qed.

Lemma fold_Set_add_In (arr s : list str) (y : str) :
  In y (fold_left Set_add arr s) <-> In y s \/ In y arr.
Proof.
  revert s; induction arr as [|x arr IH]; intros s; simpl; [intuition|].
  rewrite IH, Set_add_In; intuition.
Qed.

Lemma fold_Set_add_NoDup (arr s : list str) :
  NoDup s -> NoDup (fold_left Set_add arr s).
Proof.
  revert s; induction arr as [|x arr IH]; intros s H; simpl; [assumption|].
  apply IH, Set_add_NoDup, H.
Qed.

Lemma new_Set_In (arr : list str) (y : str) : In y (new_Set arr) <-> In y arr.
Proof. unfold new_Set; rewrite fold_Set_add_In; simpl; intuition. Qed.

Lemma new_Set_NoDup (arr : list str) : NoDup (new_Set arr).
Proof. apply fold_Set_add_NoDup; constructor. Qed.

(* ===================================================================== *)
(** * Ticket keys *)
(* ===================================================================== *)

(** Case mapping keeps letters letters and leaves digits and the hyphen
    alone. *)
Lemma upcase_alpha (c : ascii) : is_alpha c = true -> is_alpha (upcase c) = true.
Proof.
  destruct c as [[] [] [] [] [] [] [] []]; intros H; try reflexivity; discriminate H.
Qed.

Lemma upcase_not_lower (c : ascii) : is_lower c = false -> upcase c = c.
Proof. unfold upcase; intros ->; reflexivity. Qed.

Lemma digit_not_lower (c : ascii) : is_digit c = true -> is_lower c = false.
Proof.
  destruct c as [[] [] [] [] [] [] [] []]; intros H; try reflexivity; discriminate H.
Qed.

Lemma digit_not_alpha (c : ascii) : is_digit c = true -> is_alpha c = false.
Proof.
  destruct c as [[] [] [] [] [] [] [] []]; intros H; try reflexivity; discriminate H.
Qed.

Lemma toUpperCase_alpha (l : str) :
  forallb is_alpha l = true -> forallb is_alpha (toUpperCase l) = true.
Proof.
  induction l as [|c l IH]; simpl; [reflexivity|].
  rewrite !andb_true_iff; intros [Hc Hl]; auto using upcase_alpha.
Qed.

Lemma toUpperCase_digits (l : str) :
  forallb is_digit l = true -> toUpperCase l = l.
Proof.
  induction l as [|c l IH]; simpl; [reflexivity|].
  rewrite andb_true_iff; intros [Hc Hl].
  rewrite IH, upcase_not_lower; auto using digit_not_lower.
Qed.

Lemma ticket_shape_upper (m : str) : ticket_shape m -> ticket_shape (toUpperCase m).
Proof.
  intros (l & d & -> & Hl & Hla & Hd & Hda).
  exists (toUpperCase l), d; repeat split; auto using toUpperCase_alpha.
  - unfold toUpperCase; rewrite map_app; simpl.
    fold (toUpperCase d); rewrite (toUpperCase_digits d Hda); reflexivity.
  - destruct l; [congruence | discriminate].
Qed.

Lemma ticket_shape_no_newline (m : str) : ticket_shape m -> ~ In NL m.
Proof.
  intros (l & d & -> & _ & Hla & _ & Hda) H.
  rewrite forallb_forall in Hla, Hda.
  apply in_app_or in H as [H | [H | H]].
  - apply Hla in H; discriminate H.
  - discriminate H.
  - apply Hda in H; discriminate H.
Qed.

Lemma ticket_shape_nonempty (m : str) : ticket_shape m -> m <> [].
Proof. intros (l & d & -> & _); destruct l; discriminate. Qed.

(** ** From the output of the pipeline to the candidates *)

Lemma filter_truthy_lines (lines : list str) :
  Forall (fun l => l <> []) lines ->
  filter truthy_string (lines ++ [[]]) = lines.
Proof.
  induction 1 as [|l lines Hl _ IH]; [reflexivity|].
  simpl; rewrite IH; destruct l; [congruence | reflexivity].
Qed.

Lemma sorted_matches_shape (log_text m : str) :
  In m (sort_u (grep_o ticket_bre log_text)) -> ticket_shape m.
Proof.
  rewrite sort_u_In; intros H.
  apply ticket_bre_shape, (grep_o_sound _ _ _ H).
Qed.

(** Lines 168 to 170 give the candidates as the distinct uppercased
    matches, taken in the order of the sorted output of the pipeline. *)
Lemma extract_ticket_keys_eq (log_text : str) :
  extract_ticket_keys log_text =
  new_Set (map toUpperCase (sort_u (grep_o ticket_bre log_text))).
Proof.
  unfold extract_ticket_keys, initial_tickets, pipeline_stdout.
  rewrite split_unlines, filter_truthy_lines; [reflexivity | |];
    apply Forall_forall; intros m Hm; apply sorted_matches_shape in Hm.
  - apply ticket_shape_nonempty, Hm.
  - apply ticket_shape_no_newline, Hm.
Qed.

Lemma extract_ticket_keys_In (log_text k : str) :
  In k (extract_ticket_keys log_text) <->
  exists m, In m (grep_o ticket_bre log_text) /\ k = toUpperCase m.
Proof.
  rewrite extract_ticket_keys_eq, new_Set_In, in_map_iff; split.
  - intros (m & <- & H); rewrite sort_u_In in H; exists m; auto.
  - intros (m & H & ->); exists m; split; [reflexivity | apply sort_u_In, H].
Qed.

Lemma extract_ticket_keys_shape (log_text k : str) :
  In k (extract_ticket_keys log_text) -> ticket_shape k.
Proof.
  intros H; apply extract_ticket_keys_In in H as (m & Hm & ->).
  apply ticket_shape_upper, ticket_bre_shape, (grep_o_sound _ _ _ Hm).
Qed.

(** C3 (amended).  For every commit-log text, the extraction step of
    findRelatedJiraTicket returns only uppercased substrings of the text
    that match [[A-Za-z]+-[0-9]+], without duplicates and with the same keys
    as a first-occurrence scan would give; their order is that of the
    first occurrence in the byte-sorted list of matches that [sort -u]
    prints, not that of the text. *)
Theorem extraction_sorted_then_deduplicated (log_text : str) :
  let keys := extract_ticket_keys log_text in
  (forall k, In k keys ->
     Matches ticket_bre k /\
     exists m, substring_of m log_text /\ Matches ticket_bre m /\ k = toUpperCase m) /\
  NoDup keys /\
  (forall k, In k keys <-> In k (spec_first_occurrence_order log_text)) /\
  exists sorted,
    StronglySorted str_lt sorted /\
    (forall m, In m sorted <-> In m (grep_o ticket_bre log_text)) /\
    keys = new_Set (map toUpperCase sorted).
Proof.
  cbv zeta; repeat split.
  - apply ticket_bre_shape, extract_ticket_keys_shape with log_text, H.
  - apply extract_ticket_keys_In in H as (m & Hm & ->).
    destruct (grep_o_sound _ _ _ Hm) as (Hs & HM & _); exists m; auto.
  - rewrite extract_ticket_keys_eq; apply new_Set_NoDup.
  - intros H; apply extract_ticket_keys_In in H as (m & Hm & ->).
    apply new_Set_In, in_map, Hm.
  - intros H; apply new_Set_In, in_map_iff in H as (m & <- & Hm).
    apply extract_ticket_keys_In; exists m; auto.
  - exists (sort_u (grep_o ticket_bre log_text)); repeat split.
    + apply sort_u_sorted.
    + apply sort_u_In.
    + apply sort_u_In.
    + apply extract_ticket_keys_eq.
Qed.

(** C3 as worded fails: with [b-1] in the first commit line and [a-2] in
    the second, the extraction returns [A-2] before [B-1]. *)
Lemma extraction_order_is_not_first_occurrence :
  let log_text := lit "1f3a b-1 fix" ++ [NL] ++ lit "77c0 a-2 fix" in
  extract_ticket_keys log_text = [lit "A-2"; lit "B-1"] /\
  spec_first_occurrence_order log_text = [lit "B-1"; lit "A-2"] /\
  extract_ticket_keys log_text <> spec_first_occurrence_order log_text.
Proof. vm_compute; repeat split; discriminate. Qed.

(* ===================================================================== *)
(** * Running the monad *)
(* ===================================================================== *)

#[local] Arguments lit : simpl never.
#[local] Arguments get_prop : simpl never.
#[local] Arguments ToString : simpl never.
#[local] Arguments cat : simpl never.
#[local] Arguments pipeline_stdout : simpl never.
#[local] Arguments initial_tickets : simpl never.
#[local] Arguments accepts : simpl never.
#[local] Arguments git_command : simpl never.
#[local] Arguments authenticate_request : simpl never.
#[local] Arguments import_request : simpl never.
#[local] Arguments execution_issue : simpl never.
#[local] Arguments no_related_message : simpl never.
#[local] Arguments execution_comment : simpl never.
#[local] Arguments link_update : simpl never.
#[local] Arguments RegExp_test : simpl never.

Lemma bind_run {A B} (m : M A) (k : A -> M B) (st : State) :
  bind m k st =
  match m st with
  | (Return a, st') => k a st'
  | (Throw e, st') => (Throw e, st')
  end.
Proof. reflexivity. Qed.

Lemma for_cons {A} (x : A) (l : list A) (body : A -> M unit) :
  for_ (x :: l) body = (body x ;; for_ l body).
Proof. reflexivity. Qed.

(** Unfolds the straight-line primitives; loops are left alone. *)
Ltac step0 :=
  cbv beta iota zeta delta
    [bind try_catch then_catch async_call await lift emit read write ret throw
     suspend createReadStream push read_array].

Ltac step := step0; cbn.

(** Iterating with an [async] callback never throws: what a callback
    throws stays in its own promise. *)
Lemma forEach_async_returns {A} (l : list A) (callback : A -> M unit) (st : State) :
  exists st', forEach_async l callback st = (Return tt, st').
Proof.
  unfold forEach_async; revert st; induction l as [|x l IH]; intros st.
  - exists st; reflexivity.
  - rewrite for_cons, bind_run; unfold async_call at 1, try_catch, emit.
    destruct (callback x st) as [[[]|e] s1]; apply IH.
Qed.

Lemma new_events_app (st st' : State) (evs : list event) :
  trace st' = trace st ++ evs -> new_events st st' = evs.
Proof.
  unfold new_events; intros ->.
  rewrite skipn_app, skipn_all, Nat.sub_diag; reflexivity.
Qed.

(* ===================================================================== *)
(** * findRelatedJiraTicket *)
(* ===================================================================== *)

Lemma push_project_key_run (item : value) (st : State) (acc : list value) :
  jiraProjectKeysArray (vars st) = Some acc ->
  exists st',
    async_call (push_project_key item) st = (Return tt, st') /\
    jiraProjectKeysArray (vars st') =
      Some (acc ++ match get_prop item (lit "key") with
                   | Return key => [key]
                   | Throw _ => []
                   end) /\
    verifiedJiraTicketsList (vars st') = verifiedJiraTicketsList (vars st).
Proof.
  intros Hacc; unfold push_project_key; step.
  destruct (get_prop item (lit "key")) as [key|e]; cbn.
  - rewrite Hacc; cbn; eexists; repeat split.
  - eexists; repeat split; cbn; rewrite app_nil_r; assumption.
Qed.

Lemma collect_project_keys_run (jiraProjects : list value) (st : State) (acc : list value) :
  jiraProjectKeysArray (vars st) = Some acc ->
  exists st',
    collect_project_keys jiraProjects st = (Return tt, st') /\
    jiraProjectKeysArray (vars st') = Some (acc ++ fetched_keys jiraProjects) /\
    verifiedJiraTicketsList (vars st') = verifiedJiraTicketsList (vars st).
Proof.
  unfold collect_project_keys, forEach_async.
  revert st acc; induction jiraProjects as [|item rest IH]; intros st acc Hacc.
  - exists st; cbn; rewrite app_nil_r; auto.
  - rewrite for_cons, bind_run. cbn [fetched_keys flat_map].
    destruct (push_project_key_run item st acc Hacc) as (s1 & -> & K1 & V1).
    destruct (IH s1 _ K1) as (st' & -> & K & V).
    exists st'; rewrite K, <- app_assoc, V; auto.
Qed.

Lemma verify_ticket_run (ticket : str) (st : State) (keys : list value) (acc : list str) :
  jiraProjectKeysArray (vars st) = Some keys ->
  verifiedJiraTicketsList (vars st) = Some acc ->
  exists st',
    verify_ticket ticket st =
      (if accepts keys ticket then Return tt else Throw not_found, st') /\
    jiraProjectKeysArray (vars st') = Some keys /\
    (accepts keys ticket = true ->
     verifiedJiraTicketsList (vars st') = Some (acc ++ [ticket])).
Proof.
  intros Hkeys Hacc; unfold verify_ticket; step. rewrite Hkeys; cbn.
  destruct (accepts keys ticket); cbn.
  - rewrite Hacc; cbn; eexists; repeat split; assumption.
  - eexists; repeat split; [assumption | discriminate].
Qed.

Lemma verify_tickets_run (tickets : list str) (st : State) (keys : list value)
    (acc : list str) :
  jiraProjectKeysArray (vars st) = Some keys ->
  verifiedJiraTicketsList (vars st) = Some acc ->
  exists st',
    verify_tickets tickets st =
      (if forallb (accepts keys) tickets then Return tt else Throw not_found, st') /\
    (forallb (accepts keys) tickets = true ->
     verifiedJiraTicketsList (vars st') = Some (acc ++ tickets)).
Proof.
  unfold verify_tickets.
  revert st acc; induction tickets as [|ticket rest IH]; intros st acc Hkeys Hacc.
  - exists st; cbn; rewrite app_nil_r; auto.
  - rewrite for_cons, bind_run. cbn [forallb].
    destruct (verify_ticket_run ticket st keys acc Hkeys Hacc) as (s1 & -> & K1 & V1).
    destruct (accepts keys ticket); cbn.
    + destruct (IH s1 _ K1 (V1 eq_refl)) as (st' & -> & V).
      exists st'; split; [reflexivity|].
      intros H; rewrite (V H), <- app_assoc; reflexivity.
    + eexists; split; [reflexivity | discriminate].
Qed.

(** The outcome of a call depends only on the answers of the world. *)
Lemma findRelatedJiraTicket_outcome (w : World) (base head : value) (ci : bool)
    (st : State) :
  fst (findRelatedJiraTicket w base head ci st) =
  match listProjects w with
  | Rejected e => Throw e
  | Resolved jiraProjects =>
      if forallb (accepts (fetched_keys jiraProjects)) (candidates w base head ci)
      then Return (candidates w base head ci)
      else Throw not_found
  end.
Proof.
  unfold findRelatedJiraTicket, candidates, log_text_of, extract_ticket_keys, branch_ref.
  destruct ci; step; change (ToString (VStr ?x)) with x.
  all: destruct (listProjects w) as [jiraProjects|e]; cbn; [|reflexivity].
  all: match goal with |- context [collect_project_keys _ ?s] =>
         destruct (collect_project_keys_run jiraProjects s [] eq_refl)
           as (s1 & -> & K1 & V1)
       end; cbn in K1, V1.
  all: match goal with |- context [verify_tickets ?l ?s] =>
         destruct (verify_tickets_run l s (fetched_keys jiraProjects) [] K1 V1)
           as (s2 & -> & V2)
       end.
  all: match goal with |- context [forallb ?f ?l] => destruct (forallb f l) end.
  all: try reflexivity.
  all: cbn; rewrite (V2 eq_refl); reflexivity.
Qed.

(** ** The shape of a verified key *)

Lemma hyphen_not_alpha_or_digit (l : str) :
  forallb is_alpha l = true \/ forallb is_digit l = true -> ~ In "-"%char l.
Proof.
  intros [H | H] Hin; rewrite forallb_forall in H; apply H in Hin; discriminate Hin.
Qed.

(** A character that occurs once splits a string in one way only. *)
Lemma split_at_unique (c : ascii) (x y l d : str) :
  x ++ c :: y = l ++ c :: d -> ~ In c l -> ~ In c d -> x = l /\ y = d.
Proof.
  revert l; induction x as [|a x IH]; intros [|b l] E Hl Hd; simpl in E.
  - injection E as ->; auto.
  - injection E as -> _; exfalso; apply Hl; left; reflexivity.
  - injection E as -> <-; exfalso; apply Hd, in_elt.
  - injection E as -> E. destruct (IH l E) as [-> ->]; auto.
    intros H; apply Hl; right; assumption.
Qed.

Lemma alphabetic_prefix_shape (letters digits : str) :
  forallb is_alpha letters = true -> forallb is_digit digits = true ->
  alphabetic_prefix (letters ++ "-"%char :: digits) = letters.
Proof.
  intros Hl Hd; unfold alphabetic_prefix, replace_class_with_empty, non_alpha.
  rewrite filter_app; simpl.
  replace (filter _ digits) with (@nil ascii).
  - rewrite app_nil_r. rewrite forallb_forall in Hl.
    induction letters as [|c l IH]; simpl; [reflexivity|].
    rewrite (Hl c (or_introl eq_refl)); simpl; rewrite IH; auto.
    intros x Hx; apply Hl; right; assumption.
  - rewrite forallb_forall in Hd.
    induction digits as [|c d IH]; simpl; [reflexivity|].
    rewrite (digit_not_alpha c (Hd c (or_introl eq_refl))); simpl; apply IH.
    intros x Hx; apply Hd; right; assumption.
Qed.

Lemma alpha_is_alnum (l : str) : forallb is_alpha l = true -> forallb is_alnum l = true.
Proof.
  rewrite !forallb_forall; intros H c Hc; unfold is_alnum; rewrite (H c Hc); reflexivity.
Qed.

Lemma alnum_no_hyphen (l : str) : forallb is_alnum l = true -> ~ In "-"%char l.
Proof. rewrite forallb_forall; intros H Hin; apply H in Hin; discriminate Hin. Qed.

(** A candidate in which the stricter pattern finds something matches that
    pattern as a whole: the project part has two letters or more. *)
Lemma strict_search_whole (k : str) :
  ticket_shape k -> search (body strict_regex) k = true ->
  Matches (body strict_regex) k /\
  exists letters digits, k = letters ++ "-"%char :: digits /\ 2 <= length letters /\
    forallb is_alpha letters = true /\ forallb is_digit digits = true.
Proof.
  intros (l & d & -> & Hl & Hla & Hd & Hda) H.
  apply search_Matches in H as (m & (pre & post & E) & Hm).
  simpl in Hm.
  apply Matches_seq_inv in Hm as (a & m1 & -> & Ha & Hm).
  apply Matches_seq_inv in Hm as (b & m2 & -> & Hb & Hm).
  apply Matches_seq_inv in Hm as (h & d' & -> & Hh & Hd').
  apply Matches_class_inv in Ha as (c & -> & Hc).
  apply Matches_plus_class in Hb as [Hbne Hb], Hd' as [_ Hd'].
  apply Matches_chr in Hh; subst h.
  assert (E' : (pre ++ c :: b) ++ "-"%char :: (d' ++ post) = l ++ "-"%char :: d).
  { rewrite E; repeat (simpl; rewrite <- app_assoc); reflexivity. }
  apply split_at_unique in E' as [El _];
    [| apply hyphen_not_alpha_or_digit; auto | apply hyphen_not_alpha_or_digit; auto].
  assert (Hlen : 2 <= length l).
  { rewrite <- El, length_app; simpl. destruct b; [congruence | simpl; lia]. }
  split; [| exists l, d; auto].
  destruct l as [|x [|y l]]; simpl in Hlen; try lia.
  simpl in Hla; apply andb_true_iff in Hla as [Hx Hyl].
  change ((x :: y :: l) ++ "-"%char :: d) with ([x] ++ (y :: l) ++ ["-"%char] ++ d).
  unfold strict_regex; cbn [body].
  apply M_seq; [constructor; exact Hx|].
  apply M_seq; [apply Matches_plus_class; split;
                  [discriminate | apply alpha_is_alnum; exact Hyl]|].
  apply M_seq; [apply Matches_chr; reflexivity | apply Matches_plus_class; auto].
Qed.

Lemma upcase_idempotent (c : ascii) : upcase (upcase c) = upcase c.
Proof. destruct c as [[] [] [] [] [] [] [] []]; reflexivity. Qed.

(** What holds of every candidate that line 182 accepts. *)
Lemma accepted_candidate (keys : list value) (log_text k : str) :
  In k (extract_ticket_keys log_text) -> accepts keys k = true ->
  Matches ticket_bre k /\ Matches (body strict_regex) k /\
  match_truthy strict_regex k = true /\
  (exists digits, k = alphabetic_prefix k ++ "-"%char :: digits) /\
  2 <= length (alphabetic_prefix k) /\
  toUpperCase k = k /\
  In (VStr (alphabetic_prefix k)) keys.
Proof.
  intros Hin Hacc; unfold accepts in Hacc; cbv zeta in Hacc.
  apply andb_true_iff in Hacc as [Hre Hkey].
  pose proof (extract_ticket_keys_shape _ _ Hin) as Hshape.
  destruct (strict_search_whole k Hshape Hre) as (Hwhole & l & d & -> & Hlen & Hl & Hd).
  fold (alphabetic_prefix (l ++ "-"%char :: d)) in Hkey.
  rewrite (alphabetic_prefix_shape l d Hl Hd) in *.
  repeat split; auto.
  - apply ticket_bre_shape, Hshape.
  - exists d; reflexivity.
  - apply extract_ticket_keys_In in Hin as (m & _ & ->).
    unfold toUpperCase; rewrite map_map; apply map_ext; intros c; apply upcase_idempotent.
  - apply includes_str_In, Hkey.
Qed.

Lemma rejected_candidate (keys : list value) (c : str) :
  match_truthy strict_regex c = false \/ ~ In (VStr (alphabetic_prefix c)) keys ->
  accepts keys c = false.
Proof.
  unfold accepts; cbv zeta; fold (alphabetic_prefix c); intros [-> | H]; [reflexivity|].
  destruct (includes_str keys (alphabetic_prefix c)) eqn:E;
    [apply includes_str_In in E; contradiction | apply andb_false_r].
Qed.

Lemma forallb_rejects {A} (f : A -> bool) (l : list A) (x : A) :
  In x l -> f x = false -> forallb f l = false.
Proof.
  intros Hin Hf; destruct (forallb f l) eqn:E; [|reflexivity].
  rewrite forallb_forall in E; rewrite (E x Hin) in Hf; discriminate.
Qed.

(** C1.  When the tracker answers with its projects, findRelatedJiraTicket
    returns all the candidates or none: every returned key matches the
    ticket patterns (the one of [grep] and the stricter one, as a whole) and
    the key stripped of its non-alphabetic characters is a prefix of it,
    two letters or more, that is among the project keys fetched in the same
    call; and if some candidate fails the stricter pattern or has its prefix
    outside the fetched keys, the call throws instead of dropping it. *)
Theorem returned_keys_are_verified (w : World) (base head : value) (ci : bool)
    (st : State) (jiraProjects : list value)
    (Hprojects : listProjects w = Resolved jiraProjects) :
  let keys := fetched_keys jiraProjects in
  let result := fst (findRelatedJiraTicket w base head ci st) in
  (forall l, result = Return l ->
     l = candidates w base head ci /\
     forall k, In k l ->
       Matches ticket_bre k /\ Matches (body strict_regex) k /\
       match_truthy strict_regex k = true /\
       (exists digits, k = alphabetic_prefix k ++ "-"%char :: digits) /\
       2 <= length (alphabetic_prefix k) /\
       In (VStr (alphabetic_prefix k)) keys) /\
  (forall c, In c (candidates w base head ci) ->
     match_truthy strict_regex c = false \/ ~ In (VStr (alphabetic_prefix c)) keys ->
     result = Throw not_found).
Proof.
  cbv zeta; rewrite findRelatedJiraTicket_outcome, Hprojects; split.
  - intros l; destruct (forallb _ _) eqn:E; [|discriminate].
    intros [= <-]; split; [reflexivity|]; intros k Hk.
    rewrite forallb_forall in E.
    destruct (accepted_candidate _ _ k Hk (E k Hk)) as (H1 & H2 & H3 & H4 & H5 & _ & H6).
    auto 7.
  - intros c Hin Hbad.
    rewrite (forallb_rejects _ _ c Hin (rejected_candidate _ _ Hbad)); reflexivity.
Qed.

Lemma returned_keys_are_verified_witness :
  let w := demo3_world in
  let keys := fetched_keys [project (lit "DEMO")] in
  let result := fst (findRelatedJiraTicket w (VStr (lit "main")) (VStr (lit "feature")) false initial) in
  (forall l, result = Return l ->
     l = candidates w (VStr (lit "main")) (VStr (lit "feature")) false /\
     forall k, In k l ->
       Matches ticket_bre k /\ Matches (body strict_regex) k /\
       match_truthy strict_regex k = true /\
       (exists digits, k = alphabetic_prefix k ++ "-"%char :: digits) /\
       2 <= length (alphabetic_prefix k) /\
       In (VStr (alphabetic_prefix k)) keys) /\
  (forall c, In c (candidates w (VStr (lit "main")) (VStr (lit "feature")) false) ->
     match_truthy strict_regex c = false \/ ~ In (VStr (alphabetic_prefix c)) keys ->
     result = Throw not_found).
Proof.
  exact (returned_keys_are_verified demo3_world (VStr (lit "main")) (VStr (lit "feature"))
           false initial [project (lit "DEMO")] eq_refl).
Defined.

(** C2.  If at least one deduplicated candidate fails the stricter
    pattern or has a prefix outside the project key set, the call throws
    "Could not find related Jira ticket" and returns no list, whatever the
    other candidates are; so does the verification loop on any candidate
    list.  For the log text of the specification and the key set {DEMO},
    the candidates are DEMO-12 and OTHER-5, DEMO-12 is valid, and the call
    throws. *)
Theorem invalid_candidate_fails_whole_call (w : World) (base head : value) (ci : bool)
    (st : State) (jiraProjects : list value)
    (Hprojects : listProjects w = Resolved jiraProjects) :
  let keys := fetched_keys jiraProjects in
  let result := fst (findRelatedJiraTicket w base head ci st) in
  ((exists c, In c (candidates w base head ci) /\
              (match_truthy strict_regex c = false \/
               ~ In (VStr (alphabetic_prefix c)) keys)) ->
   result = Throw not_found /\ forall l, result <> Return l) /\
  (forall tickets projectKeys s acc,
     jiraProjectKeysArray (vars s) = Some projectKeys ->
     verifiedJiraTicketsList (vars s) = Some acc ->
     (exists c, In c tickets /\
                (match_truthy strict_regex c = false \/
                 ~ In (VStr (alphabetic_prefix c)) projectKeys)) ->
     fst (verify_tickets tickets s) = Throw not_found) /\
  (log_text_of w base head ci = other5_text ->
   jiraProjects = [project (lit "DEMO")] ->
   candidates w base head ci = [lit "DEMO-12"; lit "OTHER-5"] /\
   accepts keys (lit "DEMO-12") = true /\
   result = Throw not_found).
Proof.
  cbv zeta; rewrite findRelatedJiraTicket_outcome, Hprojects; repeat split.
  - destruct H as (c & Hin & Hbad).
    rewrite (forallb_rejects _ _ c Hin (rejected_candidate _ _ Hbad)); reflexivity.
  - destruct H as (c & Hin & Hbad).
    rewrite (forallb_rejects _ _ c Hin (rejected_candidate _ _ Hbad)); discriminate.
  - intros tickets projectKeys s acc Hkeys Hacc (c & Hin & Hbad).
    destruct (verify_tickets_run tickets s _ acc Hkeys Hacc) as (s' & -> & _).
    rewrite (forallb_rejects _ _ c Hin (rejected_candidate _ _ Hbad)); reflexivity.
  - unfold candidates; rewrite H; vm_compute; reflexivity.
  - subst; vm_compute; reflexivity.
  - unfold candidates; rewrite H; subst; vm_compute; reflexivity.
Qed.

Lemma invalid_candidate_fails_whole_call_witness :
  let base := VStr (lit "main") in
  let head := VStr (lit "feature") in
  (exists c, In c (candidates other5_world base head true) /\
             (match_truthy strict_regex c = false \/
              ~ In (VStr (alphabetic_prefix c)) (fetched_keys [project (lit "DEMO")]))) /\
  fst (findRelatedJiraTicket other5_world base head true initial) = Throw not_found.
Proof.
  cbv zeta.
  assert (H : exists c, In c (candidates other5_world (VStr (lit "main"))
                                (VStr (lit "feature")) true) /\
             (match_truthy strict_regex c = false \/
              ~ In (VStr (alphabetic_prefix c)) (fetched_keys [project (lit "DEMO")]))).
  { exists (lit "OTHER-5"); split; [vm_compute; right; left; reflexivity|].
    right; vm_compute; intros [E | []]; discriminate E. }
  split; [exact H|].
  exact (proj1 (proj1 (invalid_candidate_fails_whole_call other5_world
                         (VStr (lit "main")) (VStr (lit "feature")) true
                         initial [project (lit "DEMO")] eq_refl) H)).
Defined.

(** C4.  For the commit log text "abc demo-3 fix" and the project key set
    {DEMO}, findRelatedJiraTicket returns exactly the list [DEMO-3]. *)
Theorem demo3_is_returned (w : World) (base head : value) (ci : bool) (st : State)
    (Hlog : log_text_of w base head ci = lit "abc demo-3 fix")
    (Hprojects : listProjects w = Resolved [project (lit "DEMO")]) :
  fst (findRelatedJiraTicket w base head ci st) = Return [lit "DEMO-3"].
Proof.
  rewrite findRelatedJiraTicket_outcome, Hprojects.
  unfold candidates; rewrite Hlog; vm_compute; reflexivity.
Qed.

Lemma demo3_is_returned_witness :
  fst (findRelatedJiraTicket demo3_world (VStr (lit "main")) (VStr (lit "feature")) true initial)
  = Return [lit "DEMO-3"].
Proof.
  exact (demo3_is_returned demo3_world (VStr (lit "main")) (VStr (lit "feature")) true
           initial eq_refl eq_refl).
Defined.

(* ===================================================================== *)
(** * listXmlReports and importXmlDataToXray *)
(* ===================================================================== *)

Lemma keep_xml_files_run (regex : RegExp) (files : list str) (st : State) (acc : list str) :
  xmlReportFiles (vars st) = Some acc ->
  for_ files (keep_if_xml regex) st =
    (Return tt,
     mkState (set_xmlReportFiles (Some (acc ++ filter (RegExp_test regex) files)) (vars st))
       (trace st) (next_stream st) (pending st)).
Proof.
  revert st acc; induction files as [|file rest IH]; intros [m tr ns pd] acc Hacc;
    cbn in Hacc.
  - cbn; rewrite app_nil_r; destruct m; cbn in *; subst; reflexivity.
  - rewrite for_cons, bind_run; unfold keep_if_xml at 1; cbn [filter].
    destruct (RegExp_test regex file); step.
    + rewrite Hacc; cbn. rewrite IH with (acc := acc ++ [file]) by reflexivity; cbn.
      rewrite <- app_assoc; reflexivity.
    + rewrite IH with (acc := acc) by assumption; reflexivity.
Qed.

Lemma listXmlReports_run (w : World) (dir : str) (files : list str) (st : State) :
  readdir w dir = Return files ->
  listXmlReports w dir st =
    (Return (filter (RegExp_test xml_regex) files),
     mkState (set_xmlReportFiles (Some (filter (RegExp_test xml_regex) files)) (vars st))
       (trace st ++ [fs_readdirSync dir]) (next_stream st) (pending st)).
Proof.
  intros Hdir; unfold listXmlReports; step; rewrite Hdir.
  rewrite keep_xml_files_run with (acc := []) by reflexivity; reflexivity.
Qed.

(** What [/^.*.xml/] accepts: [xml] after at least one character, with no
    line terminator up to there. *)
Lemma xml_regex_accepts (name : str) :
  RegExp_test xml_regex name = true <->
  exists before c after,
    name = before ++ c :: lit "xml" ++ after /\
    forallb not_line_terminator (before ++ [c]) = true.
Proof.
  unfold RegExp_test, xml_regex; cbn [anchored body].
  rewrite prefix_match_Matches; split.
  - intros (p & q & -> & H).
    apply Matches_seq_inv in H as (a & p1 & -> & Ha & H).
    apply Matches_seq_inv in H as (d & p2 & -> & Hd & H).
    apply Matches_seq_inv in H as (x & p3 & -> & Hx & H).
    apply Matches_seq_inv in H as (m & l & -> & Hm & Hl).
    apply Matches_star_class in Ha.
    apply Matches_class_inv in Hd as (c & -> & Hc).
    apply Matches_chr in Hx, Hm, Hl; subst.
    exists a, c, q; split.
    + rewrite <- !app_assoc; reflexivity.
    + rewrite forallb_app, Ha; cbn; rewrite Hc; reflexivity.
  - intros (a & c & q & -> & H).
    rewrite forallb_app in H; apply andb_true_iff in H as [Ha Hc].
    cbn in Hc; rewrite andb_true_r in Hc.
    exists (a ++ [c] ++ ["x"%char] ++ ["m"%char] ++ ["l"%char]), q; split.
    + rewrite <- !app_assoc; reflexivity.
    + apply M_seq; [apply Matches_star_class, Ha|].
      apply M_seq; [constructor; exact Hc|].
      repeat apply M_seq; apply Matches_chr; reflexivity.
Qed.

(** The listing is filtered in place: the order of [readdirSync] is kept. *)
Lemma listXmlReports_filters (w : World) (dir : str) (files : list str) (st : State) :
  readdir w dir = Return files ->
  fst (listXmlReports w dir st) = Return (filter (RegExp_test xml_regex) files).
Proof. intros H; rewrite (listXmlReports_run _ _ _ _ H); reflexivity. Qed.

(** The example of the specification. *)
Lemma listXmlReports_example (w : World) (dir : str) (st : State) :
  readdir w dir = Return [lit "a.xml"; lit "b.txt"; lit "c.XML.bak"] ->
  fst (listXmlReports w dir st) = Return [lit "a.xml"].
Proof. intros H; rewrite (listXmlReports_filters _ _ _ _ H); reflexivity. Qed.

(** C5, evaluated on the code.  For the listing [a.xml; report-xml.txt]
    listXmlReports returns both names, although [report-xml.txt] does not
    contain [.xml]: the unescaped dot of [/^.*.xml/] stands for any
    character. *)
Theorem listXmlReports_unescaped_dot (dir : str) (st : State) :
  let w := example_world [lit "a.xml"; lit "report-xml.txt"] [] [] (Rejected no_answer) in
  fst (listXmlReports w dir st) = Return [lit "a.xml"; lit "report-xml.txt"] /\
  spec_is_xml_report (lit "report-xml.txt") = false /\
  filter spec_is_xml_report [lit "a.xml"; lit "report-xml.txt"] = [lit "a.xml"].
Proof.
  cbv zeta; rewrite listXmlReports_filters
    with (files := [lit "a.xml"; lit "report-xml.txt"]) by reflexivity.
  vm_compute; repeat split.
Qed.

(** ** The import loop *)

Lemma import_callback_run (w : World) (dir : str) (key : value) (xmlFile : str)
    (st : State) :
  async_call (import_callback w dir key xmlFile) st =
    (Return tt,
     mkState (vars st)
       (trace st ++ import_events w dir key (xrayToken (vars st)) (next_stream st) [xmlFile])
       (S (next_stream st)) (pending st ++ [AfterImport xmlFile])).
Proof.
  unfold import_callback; step. rewrite <- app_assoc; reflexivity.
Qed.

Lemma import_loop_run (w : World) (dir : str) (key : value) (files : list str)
    (st : State) :
  forEach_async files (import_callback w dir key) st =
    (Return tt,
     mkState (vars st)
       (trace st ++ import_events w dir key (xrayToken (vars st)) (next_stream st) files)
       (next_stream st + length files) (pending st ++ map AfterImport files)).
Proof.
  unfold forEach_async; revert st; induction files as [|xmlFile rest IH]; intros st.
  - cbn; rewrite !app_nil_r, Nat.add_0_r; destruct st; reflexivity.
  - rewrite for_cons, bind_run, import_callback_run, IH; cbn.
    rewrite <- !app_assoc, Nat.add_succ_r; reflexivity.
Qed.

(** What the authentication exchange leaves behind. *)
Lemma authenticate_run (w : World) (st : State) :
  exists logged token,
    authenticate w st =
      (Return tt,
       mkState (set_xrayToken token (vars st))
         (trace st ++ [needle (authenticate_request w); console_log logged])
         (next_stream st) (pending st)) /\
    (forall e, needle_response w (authenticate_request w) = Rejected e ->
               logged = LErr e /\ token = xrayToken (vars st)).
Proof.
  unfold authenticate; step.
  destruct (needle_response w (authenticate_request w)) as [res|e]; cbn.
  - destruct (get_prop res (lit "body")) as [body|e]; cbn.
    + eexists _, body; split; [rewrite <- !app_assoc; reflexivity | discriminate].
    + exists (LErr e), (xrayToken (vars st)); split; [|discriminate].
      rewrite <- !app_assoc; destruct st as [[] ? ? ?]; reflexivity.
  - exists (LErr e), (xrayToken (vars st)); split.
    + rewrite <- !app_assoc; destruct st as [[] ? ? ?]; reflexivity.
    + intros e' [= <-]; auto.
Qed.

Lemma importXmlDataToXray_run (w : World) (dir : str) (key : value) (files : list str)
    (st : State) :
  readdir w dir = Return files ->
  let matching := filter (RegExp_test xml_regex) files in
  exists logged token st',
    importXmlDataToXray w dir key st = (Return tt, st') /\
    trace st' = trace st ++
      [fs_readdirSync dir; needle (authenticate_request w); console_log logged] ++
      import_events w dir key token (next_stream st) matching /\
    xrayToken (vars st') = token /\
    pending st' = pending st ++ map AfterImport matching /\
    (forall e, needle_response w (authenticate_request w) = Rejected e ->
               logged = LErr e /\ token = xrayToken (vars st)).
Proof.
  intros Hdir; cbv zeta; unfold importXmlDataToXray.
  rewrite bind_run, (listXmlReports_run _ _ _ _ Hdir), bind_run.
  match goal with |- context [authenticate w ?s] =>
    destruct (authenticate_run w s) as (logged & token & -> & Hrej) end.
  exists logged, token; step. rewrite import_loop_run; cbn.
  eexists; split; [reflexivity|]; cbn; split; [|split; [|split]].
  - rewrite <- !app_assoc; reflexivity.
  - reflexivity.
  - reflexivity.
  - intros e He; exact (Hrej e He).
Qed.

(** ** Reading the import events *)

Lemma import_requests_app (a b : list event) :
  import_requests (a ++ b) = import_requests a ++ import_requests b.
Proof. apply flat_map_app. Qed.

Lemma opened_streams_app (a b : list event) :
  opened_streams (a ++ b) = opened_streams a ++ opened_streams b.
Proof. apply flat_map_app. Qed.

Lemma import_requests_import_events (w : World) (dir : str) (key token : value)
    (h : stream) (files : list str) :
  import_requests (import_events w dir key token h files) =
  map (import_request w key token) (seq h (length files)).
Proof.
  revert h; induction files as [|f rest IH]; intros h; [reflexivity|].
  cbn [import_events length seq map]. rewrite <- IH; reflexivity.
Qed.

Lemma opened_streams_import_events (w : World) (dir : str) (key token : value)
    (h : stream) (files : list str) :
  opened_streams (import_events w dir key token h files) =
  combine (map (fun f => cat [dir; lit "/"; f]) files) (seq h (length files)).
Proof.
  revert h; induction files as [|f rest IH]; intros h; [reflexivity|].
  cbn [import_events length seq map combine]. rewrite <- IH; reflexivity.
Qed.

Lemma map_fst_combine_seq {A} (l : list A) (h : nat) :
  map fst (combine l (seq h (length l))) = l.
Proof.
  revert h; induction l as [|x l IH]; intros h; [reflexivity|].
  cbn; rewrite IH; reflexivity.
Qed.

Lemma map_snd_combine_seq {A} (l : list A) (h : nat) :
  map snd (combine l (seq h (length l))) = seq h (length l).
Proof.
  revert h; induction l as [|x l IH]; intros h; [reflexivity|].
  cbn; rewrite IH; reflexivity.
Qed.

Lemma import_requests_prologue (w : World) (dir : str) (logged : log_arg) :
  import_requests
    [fs_readdirSync dir; needle (authenticate_request w); console_log logged] = [].
Proof. reflexivity. Qed.

(** C7.  For a directory whose listing has N names matching the report
    pattern, importXmlDataToXray issues exactly N import requests, one per
    matching file in the order of the listing, each with its own stream on
    that file as body and each with the same URL, which carries the fixed
    project key DEMO and the execution-ticket key of the caller. *)
Theorem one_import_request_per_xml_file (w : World) (dir : str) (key : value)
    (files : list str) (st : State)
    (Hdir : readdir w dir = Return files) :
  let run := importXmlDataToXray w dir key st in
  let matching := filter (RegExp_test xml_regex) files in
  let events := new_events st (snd run) in
  let requests := import_requests events in
  fst run = Return tt /\
  length requests = length matching /\
  Forall (fun r => req_url r = import_url w key) requests /\
  import_url w key =
    cat [XRAY_CLOUD_URL w; lit "/api/v2/import/execution/junit?projectKey=DEMO&testExecKey=";
         ToString key] /\
  map fst (opened_streams events) = map (fun f => cat [dir; lit "/"; f]) matching /\
  map req_data requests = map (fun p => BodyStream (snd p)) (opened_streams events) /\
  NoDup (map snd (opened_streams events)).
Proof.
  cbv zeta.
  destruct (importXmlDataToXray_run w dir key files st Hdir)
    as (logged & token & st' & -> & Htrace & _).
  cbn [fst snd]; rewrite (new_events_app _ _ _ Htrace).
  rewrite import_requests_app, import_requests_prologue, opened_streams_app; cbn [app].
  change (opened_streams [_; _; _]) with (@nil (str * stream)); cbn [app].
  rewrite import_requests_import_events, opened_streams_import_events.
  set (matching := filter (RegExp_test xml_regex) files).
  set (paths := map (fun f => cat [dir; lit "/"; f]) matching).
  assert (Hlen : length matching = length paths) by (unfold paths; rewrite length_map; reflexivity).
  rewrite Hlen; repeat split.
  - rewrite length_map, length_seq; reflexivity.
  - apply Forall_forall; intros r Hr; apply in_map_iff in Hr as (h & <- & _); reflexivity.
  - apply map_fst_combine_seq.
  - rewrite <- (map_map snd BodyStream), map_snd_combine_seq, map_map; reflexivity.
  - rewrite map_snd_combine_seq; apply seq_NoDup.
Qed.

Lemma one_import_request_per_xml_file_witness :
  let run := importXmlDataToXray two_reports_world (lit "reports") (VStr (lit "DEMO-7")) initial in
  let events := new_events initial (snd run) in
  length (import_requests events) = 2 /\
  Forall (fun r => req_url r =
            lit "https://xray.example/api/v2/import/execution/junit?projectKey=DEMO&testExecKey=DEMO-7")
         (import_requests events).
Proof.
  pose proof (one_import_request_per_xml_file two_reports_world (lit "reports")
                (VStr (lit "DEMO-7")) [lit "a.xml"; lit "notes.txt"; lit "b.xml"]
                initial eq_refl) as (_ & Hn & Hurl & _).
  split; [exact Hn | exact Hurl].
Defined.

(** When the authentication request is rejected, importXmlDataToXray logs
    the error and still sends one import request per listed file; their
    Authorization header carries whatever the module variable [xrayToken]
    held before the call, [undefined] if nothing was assigned to it yet. *)
Lemma rejected_authentication_keeps_token (w : World) (dir : str) (key : value)
    (files : list str) (st : State) (e : exn)
    (Hdir : readdir w dir = Return files)
    (Hauth : needle_response w (authenticate_request w) = Rejected e) :
  let run := importXmlDataToXray w dir key st in
  let matching := filter (RegExp_test xml_regex) files in
  let events := new_events st (snd run) in
  let requests := import_requests events in
  fst run = Return tt /\
  events =
    [fs_readdirSync dir; needle (authenticate_request w); console_log (LErr e)] ++
    import_events w dir key (xrayToken (vars st)) (next_stream st) matching /\
  length requests = length matching /\
  Forall (fun r => authorization r = Some (lit "Bearer " ++ ToString (xrayToken (vars st))))
         requests /\
  (xrayToken (vars st) = VUndefined ->
   Forall (fun r => authorization r = Some (lit "Bearer undefined")) requests).
Proof.
  cbv zeta.
  destruct (importXmlDataToXray_run w dir key files st Hdir)
    as (logged & token & st' & -> & Htrace & _ & _ & Hrej).
  destruct (Hrej e Hauth) as [-> ->].
  cbn [fst snd]; rewrite (new_events_app _ _ _ Htrace).
  rewrite import_requests_app, import_requests_prologue, import_requests_import_events.
  cbn [app].
  assert (Hall : Forall (fun r => authorization r =
                           Some (lit "Bearer " ++ ToString (xrayToken (vars st))))
                   (map (import_request w key (xrayToken (vars st)))
                      (seq (next_stream st)
                         (length (filter (RegExp_test xml_regex) files))))).
  { apply Forall_forall; intros r Hr; apply in_map_iff in Hr as (h & <- & _); reflexivity. }
  repeat split; auto.
  - rewrite length_map, length_seq; reflexivity.
  - intros Hundef; rewrite Hundef in *; exact Hall.
Qed.

(** C6, evaluated on the code.  Two failures of the authentication, for
    the listing [a.xml; notes.txt; b.xml], on which the imports do not
    carry [Bearer undefined].  When the add-on refuses the credentials the
    promise resolves: the call logs the answer as the generated token, logs
    no error, and sends both imports with [Bearer [object Object]].  When
    the request is rejected in a process whose earlier call was granted the
    token [tok], the call logs the error and sends both imports with
    [Bearer tok].  Neither call throws. *)
Theorem failed_authentication_sends_a_token :
  let dir := lit "reports" in
  let key := VStr (lit "DEMO-7") in
  let refused := importXmlDataToXray refused_world dir key initial in
  let s1 := snd (importXmlDataToXray granted_world dir key initial) in
  let rejected := importXmlDataToXray two_reports_world dir key s1 in
  needle_response refused_world (authenticate_request refused_world) = Resolved refusal /\
  fst refused = Return tt /\
  new_events initial (snd refused) =
    [fs_readdirSync dir; needle (authenticate_request refused_world);
     console_log (LStr (lit "Generated Xray token => [object Object]"))] ++
    import_events refused_world dir key refusal_body 0 [lit "a.xml"; lit "b.xml"] /\
  map authorization (import_requests (new_events initial (snd refused))) =
    [Some (lit "Bearer [object Object]"); Some (lit "Bearer [object Object]")] /\
  xrayToken (vars s1) = VStr (lit "tok") /\
  needle_response two_reports_world (authenticate_request two_reports_world) =
    Rejected no_answer /\
  fst rejected = Return tt /\
  new_events s1 (snd rejected) =
    [fs_readdirSync dir; needle (authenticate_request two_reports_world);
     console_log (LErr no_answer)] ++
    import_events two_reports_world dir key (VStr (lit "tok")) 2 [lit "a.xml"; lit "b.xml"] /\
  map authorization (import_requests (new_events s1 (snd rejected))) =
    [Some (lit "Bearer tok"); Some (lit "Bearer tok")].
Proof.
  vm_compute; repeat split.
Qed.

(** Once its request has settled, the import callback logs the answer or
    the error, then the file name; it never rejects. *)
Lemma after_import_returns (xmlFile : str) (response : promise value) (st : State) :
  exists logged,
    after_import xmlFile response st =
      (Return tt,
       mkState (vars st) (trace st ++ [console_log logged; console_log (LStr xmlFile)])
         (next_stream st) (pending st)).
Proof.
  unfold after_import; step. destruct response as [res|e]; cbn.
  - destruct (get_prop res (lit "body")) as [body|e]; cbn;
      eexists; rewrite <- app_assoc; reflexivity.
  - eexists; rewrite <- app_assoc; reflexivity.
Qed.

(* ===================================================================== *)
(** * linkTestExecutionResults *)
(* ===================================================================== *)

(** A rejected update surfaces after the call, in the callback's own
    promise: the [try] of line 222 has been left by then. *)
Lemma after_link_rejection (ticket : str) (key : value) (e : exn) (st : State) :
  after_link ticket key (Rejected e) st = (Throw e, st).
Proof. reflexivity. Qed.

Lemma link_loop_run (issueObject : IssueLink) (key : value) (tickets : list str)
    (st : State) :
  forEach_async tickets (link_callback issueObject key) st =
    (Return tt,
     mkState (vars st)
       (trace st ++ map (fun ticket => jira_updateIssue ticket issueObject) tickets)
       (next_stream st)
       (pending st ++ map (fun ticket => AfterLink ticket key) tickets)).
Proof.
  unfold forEach_async; revert st; induction tickets as [|ticket rest IH]; intros st.
  - cbn; rewrite !app_nil_r; destruct st; reflexivity.
  - rewrite for_cons, bind_run. unfold link_callback at 1; step.
    rewrite IH; cbn; rewrite <- !app_assoc; reflexivity.
Qed.

(** With tickets to link, one update per ticket is issued and nothing is
    logged before the answers come. *)
Lemma linkTestExecutionResults_some (ticket : str) (rest : list str) (key : value)
    (st : State) :
  let run := linkTestExecutionResults (ticket :: rest) key st in
  fst run = Return tt /\
  new_events st (snd run) =
    map (fun t => jira_updateIssue t (link_update key)) (ticket :: rest).
Proof.
  cbv zeta; unfold linkTestExecutionResults.
  change (js_bool_gt_0 (js_not_number (length (ticket :: rest)))) with false.
  step0. rewrite link_loop_run; cbn; split; [reflexivity|].
  apply new_events_app; reflexivity.
Qed.

(** C8.  For every execution-ticket key, linkTestExecutionResults called
    with an empty list returns normally, issues no link update, leaves
    nothing pending and logs one message, which ends with the key of the
    execution ticket. *)
Theorem empty_list_links_nothing (key : value) (st : State) :
  let run := linkTestExecutionResults [] key st in
  let events := new_events st (snd run) in
  fst run = Return tt /\
  events = [console_log (LStr (no_related_message key))] /\
  filter is_updateIssue events = [] /\
  pending (snd run) = pending st /\
  exists text, no_related_message key = text ++ lit "directly here: " ++ ToString key.
Proof.
  cbv zeta; unfold linkTestExecutionResults; step.
  rewrite (new_events_app st _ [console_log (LStr (no_related_message key))]) by reflexivity.
  repeat split.
  eexists; unfold no_related_message, cat; cbn [concat].
  rewrite app_nil_r, (app_assoc _ [NL]), (app_assoc _ (lit "    directly here: ")).
  change (lit "    directly here: ") with (lit "    " ++ lit "directly here: ").
  rewrite !app_assoc; reflexivity.
Qed.

(* ===================================================================== *)
(** * createJiraTestExecutionTicket *)
(* ===================================================================== *)

(** C9.  createJiraTestExecutionTicket always returns and never throws:
    it returns the key of the issue that the tracker created, or, when the
    creation is rejected or its answer has no readable key, it logs the
    error with [console.error] and returns [null]. *)
Theorem creation_returns_key_or_null (w : World)
    (githubRepo githubRun env actor githubRunId branchName : value) (st : State) :
  let issue := execution_issue githubRepo githubRun env actor githubRunId branchName in
  let run := createJiraTestExecutionTicket w githubRepo githubRun env actor githubRunId
               branchName st in
  let events := new_events st (snd run) in
  (exists v, fst run = Return v) /\
  match addNewIssue w issue with
  | Resolved created =>
      match get_prop created (lit "key") with
      | Return key => fst run = Return key /\ events = [jira_addNewIssue issue]
      | Throw e =>
          fst run = Return VNull /\
          events = [jira_addNewIssue issue; console_error (LErr e)]
      end
  | Rejected e =>
      fst run = Return VNull /\
      events = [jira_addNewIssue issue; console_error (LErr e)]
  end.
Proof.
  cbv zeta; unfold createJiraTestExecutionTicket; step.
  destruct (addNewIssue w _) as [created|e]; cbn.
  - destruct (get_prop created (lit "key")) as [key|e]; cbn.
    + split; [eauto|]; split; [reflexivity | apply new_events_app; reflexivity].
    + split; [eauto|]; split; [reflexivity|].
      apply new_events_app; cbn; rewrite <- app_assoc; reflexivity.
  - split; [eauto|]; split; [reflexivity|].
    apply new_events_app; cbn; rewrite <- app_assoc; reflexivity.
Qed.

(* ===================================================================== *)
(** * addInfoAboutExecution *)
(* ===================================================================== *)

Lemma attach_loop_run (reportStream : stream) (tickets : list str) (st : State) :
  forEach_async tickets (attach_callback reportStream) st =
    (Return tt,
     mkState (vars st)
       (trace st ++ map (fun t => jira_addAttachmentOnIssue t reportStream) tickets)
       (next_stream st)
       (pending st ++ map AfterAttach tickets)).
Proof.
  unfold forEach_async; revert st; induction tickets as [|ticket rest IH]; intros st.
  - cbn; rewrite !app_nil_r; destruct st; reflexivity.
  - rewrite for_cons, bind_run. unfold attach_callback at 1; step.
    rewrite IH; cbn; rewrite <- !app_assoc; reflexivity.
Qed.

Lemma comment_loop_run (comment : str) (tickets : list str) (st : State) :
  forEach_async tickets (comment_callback comment) st =
    (Return tt,
     mkState (vars st)
       (trace st ++ map (fun t => jira_addCommentAdvanced t comment) tickets)
       (next_stream st)
       (pending st ++ map AfterComment tickets)).
Proof.
  unfold forEach_async; revert st; induction tickets as [|ticket rest IH]; intros st.
  - cbn; rewrite !app_nil_r; destruct st; reflexivity.
  - rewrite for_cons, bind_run. unfold comment_callback at 1; step.
    rewrite IH; cbn; rewrite <- !app_assoc; reflexivity.
Qed.

(** The callbacks of the attachment and comment passes catch their own
    errors. *)
Lemma after_attach_returns (ticket : str) (response : promise (list value)) (st : State) :
  exists st', after_attach ticket response st = (Return tt, st').
Proof.
  unfold after_attach; step0; destruct response as [attachements|e];
    [|eexists; reflexivity].
  destruct (forEach_async_returns attachements (log_attachment ticket) st) as (s' & ->).
  eexists; reflexivity.
Qed.

Lemma after_comment_returns (ticket : str) (response : promise value) (st : State) :
  exists st', after_comment ticket response st = (Return tt, st').
Proof.
  unfold after_comment; step. destruct response as [res|e]; cbn; [|eexists; reflexivity].
  destruct (get_prop res (lit "author")) as [author|e]; cbn; [|eexists; reflexivity].
  destruct (get_prop author (lit "displayName")); cbn; eexists; reflexivity.
Qed.

(** The whole trace of a call. *)
Lemma addInfoAboutExecution_events (tickets : list str) (path : str)
    (githubRepo currentBranchName env actor githubRunId reportLink : value) (st : State) :
  let run := addInfoAboutExecution tickets path githubRepo currentBranchName env actor
               githubRunId reportLink st in
  let h := next_stream st in
  fst run = Return tt /\
  new_events st (snd run) =
    [console_log (LArr tickets); fs_createReadStream path h] ++
    match tickets with
    | [] => [console_log (LStr (lit "There are no related tickets where test report can be linked"))]
    | _ =>
        map (fun t => jira_addAttachmentOnIssue t h) tickets ++
        map (fun t => jira_addCommentAdvanced t
                        (execution_comment githubRepo currentBranchName env actor
                           githubRunId reportLink)) tickets
    end.
Proof.
  cbv zeta; unfold addInfoAboutExecution; destruct tickets as [|ticket rest].
  - step. split; [reflexivity|]. apply new_events_app; rewrite <- !app_assoc; reflexivity.
  - change (js_bool_gt_0 (js_not_number (length (ticket :: rest)))) with false.
    step0. rewrite attach_loop_run; cbv beta iota. rewrite comment_loop_run; cbn.
    split; [reflexivity|]. apply new_events_app; rewrite <- !app_assoc; reflexivity.
Qed.

Lemma flat_map_map_nil {A B C} (f : B -> list C) (g : A -> B) (l : list A) :
  (forall x, f (g x) = []) -> flat_map f (map g l) = [].
Proof. intros H; induction l as [|x l IH]; cbn; [|rewrite H, IH]; reflexivity. Qed.

Lemma filter_map_none {A B} (p : B -> bool) (g : A -> B) (l : list A) :
  (forall x, p (g x) = false) -> filter p (map g l) = [].
Proof. intros H; induction l as [|x l IH]; cbn; [|rewrite H, IH]; reflexivity. Qed.

Lemma filter_map_all {A B} (p : B -> bool) (g : A -> B) (l : list A) :
  (forall x, p (g x) = true) -> filter p (map g l) = map g l.
Proof. intros H; induction l as [|x l IH]; cbn; [|rewrite H, IH]; reflexivity. Qed.

(** C10.  addInfoAboutExecution opens the report file once per call,
    however many tickets there are, and every attachment call of the call
    is given that one stream. *)
Theorem report_stream_opened_once (tickets : list str) (path : str)
    (githubRepo currentBranchName env actor githubRunId reportLink : value) (st : State) :
  let run := addInfoAboutExecution tickets path githubRepo currentBranchName env actor
               githubRunId reportLink st in
  let events := new_events st (snd run) in
  fst run = Return tt /\
  opened_streams events = [(path, next_stream st)] /\
  length (filter is_createReadStream events) = 1 /\
  filter is_addAttachment events =
    map (fun t => jira_addAttachmentOnIssue t (next_stream st)) tickets.
Proof.
  cbv zeta.
  destruct (addInfoAboutExecution_events tickets path githubRepo currentBranchName env
              actor githubRunId reportLink st) as [Hret Hev].
  cbv zeta in Hev; rewrite Hev; split; [exact Hret|].
  unfold opened_streams; rewrite flat_map_app, !filter_app.
  destruct tickets as [|ticket rest]; [repeat split|].
  rewrite flat_map_app, !filter_app.
  rewrite !flat_map_map_nil by reflexivity.
  rewrite !(filter_map_none is_createReadStream) by reflexivity.
  rewrite (filter_map_none is_addAttachment
             (fun t => jira_addCommentAdvanced t _)) by reflexivity.
  rewrite (filter_map_all is_addAttachment) by reflexivity.
  rewrite !app_nil_r; repeat split.
Qed.

(* ===================================================================== *)
(** * What [grep -o] selects *)
(* ===================================================================== *)

(** A prefix that matches is never longer than the one [longest] finds. *)
Lemma longest_max (r : regex) (s : str) (k : nat) :
  k <= length s -> Matches r (firstn k s) ->
  exists n, longest r s = Some n /\ k <= n.
Proof.
  revert r k; induction s as [|c s IH]; intros r k Hk Hm.
  - destruct k; [|simpl in Hk; lia].
    apply nullable_Matches in Hm; simpl; rewrite Hm; exists 0; auto.
  - destruct k as [|k]; simpl in *.
    + apply nullable_Matches in Hm; rewrite Hm.
      destruct (longest (deriv c r) s) as [n|]; eexists; split; try reflexivity; lia.
    + apply deriv_Matches in Hm.
      destruct (IH (deriv c r) k ltac:(lia) Hm) as (n & -> & Hn).
      exists (S n); split; [reflexivity | lia].
Qed.

Lemma longest_whole (r : regex) (m post : str) :
  Matches r m ->
  (forall k, length m < k -> k <= length (m ++ post) -> ~ Matches r (firstn k (m ++ post))) ->
  longest r (m ++ post) = Some (length m).
Proof.
  intros Hm Hmax.
  destruct (longest_max r (m ++ post) (length m)) as (n & Hn & Hle).
  - rewrite length_app; lia.
  - rewrite firstn_app, Nat.sub_diag, firstn_all; simpl; rewrite app_nil_r; exact Hm.
  - destruct (longest_sound _ _ _ Hn) as [Hlen HM].
    destruct (Nat.eq_dec n (length m)) as [->|Hne]; [exact Hn|].
    exfalso; apply (Hmax n); [lia | exact Hlen | exact HM].
Qed.

(** Where a selected match lies in its line: it is the longest match at
    its position, and what precedes it is empty, ends with an earlier
    match, or ends at a position where no match starts. *)
Lemma grep_line_positions (r : regex) (s m : str) :
  In m (grep_line r s) ->
  exists pre post,
    s = pre ++ m ++ post /\ m <> [] /\
    longest r (m ++ post) = Some (length m) /\
    (pre = [] \/
     (exists pre' m0, pre = pre' ++ m0 /\ m0 <> [] /\ Matches r m0) \/
     (exists pre' c, pre = pre' ++ [c] /\
                     forall n, longest r (c :: m ++ post) <> Some (S n))).
Proof.
  funelim (grep_line r s); simp grep_line in *; rewrite ?Heq in *.
  1: intros [].
  - (* no match at the head *)
    intros H'; apply H in H' as (pre & post & -> & Hne & Hl & Hpre).
    exists (c :: pre), post; repeat split; auto.
    destruct Hpre as [-> | [(p & m0 & -> & Hm0) | (p & x & -> & Hx)]].
    + right; right; exists [], c; split; [reflexivity|].
      cbn [app] in *; intros n; rewrite Heq; discriminate.
    + right; left; exists (c :: p), m0; auto.
    + right; right; exists (c :: p), x; auto.
  - (* a match at the head *)
    pose proof (longest_sound _ _ _ Heq) as [Hlen Hm].
    intros H'; apply in_inv in H' as [<- | H'].
    + exists [], (skipn (S n) (c :: s')); repeat split.
      * cbn [app]; rewrite firstn_skipn; reflexivity.
      * discriminate.
      * rewrite firstn_skipn, length_firstn, Nat.min_l by exact Hlen; exact Heq.
      * left; reflexivity.
    + apply H in H' as (pre & post & E & Hne & Hl & Hpre).
      exists (firstn (S n) (c :: s') ++ pre), post; repeat split; auto.
      * rewrite <- app_assoc, <- E.
        change (skipn n s') with (skipn (S n) (c :: s')).
        rewrite firstn_skipn; reflexivity.
      * right. destruct Hpre as [-> | [(p & m0 & -> & Hm0) | (p & x & -> & Hx)]].
        -- left; exists [], (firstn (S n) (c :: s')); rewrite app_nil_r.
           repeat split; [discriminate | exact Hm].
        -- left; exists (firstn (S n) (c :: s') ++ p), m0; rewrite app_assoc; auto.
        -- right; exists (firstn (S n) (c :: s') ++ p), x; rewrite app_assoc; auto.
  - (* only the empty match at the head *)
    intros H'; apply H in H' as (pre & post & -> & Hne & Hl & Hpre).
    exists (c :: pre), post; repeat split; auto.
    destruct Hpre as [-> | [(p & m0 & -> & Hm0) | (p & x & -> & Hx)]].
    + right; right; exists [], c; split; [reflexivity|].
      cbn [app] in *; intros n; rewrite Heq; discriminate.
    + right; left; exists (c :: p), m0; auto.
    + right; right; exists (c :: p), x; auto.
Qed.

(** ** Ticket keys are selected whole *)

Lemma ticket_shape_snoc_digit (m : str) (d : ascii) :
  ticket_shape m -> is_digit d = true -> ticket_shape (m ++ [d]).
Proof.
  intros (l & ds & -> & Hl & Hla & Hd & Hda) Hdig.
  exists l, (ds ++ [d]); repeat split; auto.
  - rewrite <- app_assoc; reflexivity.
  - destruct ds; discriminate.
  - rewrite forallb_app, Hda; simpl; rewrite Hdig; reflexivity.
Qed.

Lemma ticket_shape_cons_alpha (m : str) (c : ascii) :
  ticket_shape m -> is_alpha c = true -> ticket_shape (c :: m).
Proof.
  intros (l & ds & -> & Hl & Hla & Hd & Hda) Hc.
  exists (c :: l), ds; repeat split; auto; [discriminate|].
  simpl; rewrite Hc; exact Hla.
Qed.

Lemma ticket_shape_ends_in_digit (m : str) : ticket_shape m -> ends_in is_digit m.
Proof.
  intros (l & ds & -> & _ & _ & Hd & Hda).
  destruct (exists_last Hd) as (ds' & d & ->).
  exists (l ++ "-"%char :: ds'), d; split.
  - rewrite <- app_assoc; reflexivity.
  - rewrite forallb_app in Hda; apply andb_true_iff in Hda as [_ Hda].
    simpl in Hda; rewrite andb_true_r in Hda; exact Hda.
Qed.

Lemma ticket_shape_begins_in_alpha (m : str) : ticket_shape m -> begins_in is_alpha m.
Proof.
  intros (l & ds & -> & Hl & Hla & _).
  destruct l as [|c l]; [congruence|].
  simpl in Hla; apply andb_true_iff in Hla as [Hc _].
  exists c, (l ++ "-"%char :: ds); auto.
Qed.

Lemma firstn_app_exact {A} (a b : list A) : firstn (length a) (a ++ b) = a.
Proof. rewrite firstn_app, Nat.sub_diag, firstn_all; simpl; apply app_nil_r. Qed.

(** The longest match at a key's position stops where the digits stop. *)
Lemma longest_ticket_not_cut (m post : str) :
  longest ticket_bre (m ++ post) = Some (length m) -> ~ begins_in is_digit post.
Proof.
  intros Hl (d & post' & -> & Hd).
  destruct (longest_sound _ _ _ Hl) as [_ Hm]; rewrite firstn_app_exact in Hm.
  apply ticket_bre_shape in Hm.
  destruct (longest_max ticket_bre (m ++ d :: post') (S (length m))) as (n & Hn & Hle).
  - rewrite length_app; simpl; lia.
  - replace (m ++ d :: post') with ((m ++ [d]) ++ post')
      by (rewrite <- app_assoc; reflexivity).
    replace (S (length m)) with (length (m ++ [d])) by (rewrite length_app; simpl; lia).
    rewrite firstn_app_exact.
    apply ticket_bre_shape, ticket_shape_snoc_digit; assumption.
  - rewrite Hl in Hn; injection Hn as <-; lia.
Qed.

Lemma grep_line_whole_key (s m : str) :
  In m (grep_line ticket_bre s) ->
  exists pre post, s = pre ++ m ++ post /\ whole_key_at pre m post.
Proof.
  intros H; apply grep_line_positions in H as (pre & post & -> & Hne & Hl & Hpre).
  assert (Hm : Matches ticket_bre m).
  { destruct (longest_sound _ _ _ Hl) as [_ Hm]; rewrite firstn_app_exact in Hm; exact Hm. }
  exists pre, post; split; [reflexivity|]; split; [exact Hm|]; split.
  - intros (p & c & -> & Hc).
    destruct Hpre as [E | [(p' & m0 & E & _ & Hm0) | (p' & x & E & Hx)]].
    + destruct p; discriminate.
    + apply ticket_bre_shape, ticket_shape_ends_in_digit in Hm0 as (y & d & -> & Hd).
      rewrite app_assoc in E; apply app_inj_tail in E as [_ ->].
      rewrite (digit_not_alpha _ Hd) in Hc; discriminate.
    + apply app_inj_tail in E as [_ <-].
      destruct (longest_max ticket_bre (c :: m ++ post) (S (length m))) as (n & Hn & Hle).
      * simpl; rewrite length_app; lia.
      * change (c :: m ++ post) with ((c :: m) ++ post).
        change (S (length m)) with (length (c :: m)); rewrite firstn_app_exact.
        apply ticket_bre_shape, ticket_shape_cons_alpha; [apply ticket_bre_shape|]; assumption.
      * destruct n; [lia | exact (Hx n Hn)].
  - apply (longest_ticket_not_cut m post Hl).
Qed.

(** The first occurrence of a character splits a string in one way only. *)
Lemma split_at_first_unique (c : ascii) (x y l d : str) :
  x ++ c :: y = l ++ c :: d -> ~ In c x -> ~ In c l -> x = l /\ y = d.
Proof.
  revert l; induction x as [|a x IH]; intros [|b l] E Hx Hl; simpl in E.
  - injection E as ->; auto.
  - injection E as <- _; exfalso; apply Hl; left; reflexivity.
  - injection E as -> _; exfalso; apply Hx; left; reflexivity.
  - injection E as -> E. destruct (IH l E) as [-> ->]; auto.
    + intros H; apply Hx; right; assumption.
    + intros H; apply Hl; right; assumption.
Qed.

(** A key followed by something else than a digit is the longest match at
    its position. *)
Lemma longest_ticket_whole (m post : str) :
  Matches ticket_bre m -> ~ begins_in is_digit post ->
  longest ticket_bre (m ++ post) = Some (length m).
Proof.
  intros Hm Hpost; apply longest_whole; [exact Hm|].
  intros k Hk Hlen HM.
  rewrite firstn_app in HM.
  rewrite firstn_all2 in HM by lia.
  destruct (firstn (k - length m) post) as [|x e] eqn:E.
  { apply (f_equal (@length _)) in E; rewrite length_firstn in E; simpl in E.
    rewrite length_app in Hlen; lia. }
  assert (Hx : exists post', post = x :: post').
  { destruct post as [|y post']; [destruct (k - length m); discriminate|].
    destruct (k - length m); [discriminate|]. simpl in E; injection E as -> _; eauto. }
  destruct Hx as (post' & ->).
  apply Hpost; exists x, post'; split; [reflexivity|].
  apply ticket_bre_shape in Hm as (l & ds & -> & _ & Hla & _ & Hda).
  apply ticket_bre_shape in HM as (l' & ds' & E' & _ & Hla' & _ & Hda').
  rewrite <- app_assoc in E'; simpl in E'.
  apply split_at_first_unique in E' as [_ <-];
    try (apply hyphen_not_alpha_or_digit; auto).
  rewrite forallb_app in Hda'; apply andb_true_iff in Hda' as [_ H].
  simpl in H; apply andb_true_iff in H as [H _]; exact H.
Qed.

(** In a key, every character before a letter is a letter. *)
Lemma letter_after_letter (l ds u v : str) (c a : ascii) :
  l ++ "-"%char :: ds = u ++ c :: a :: v ->
  forallb is_alpha l = true -> forallb is_digit ds = true ->
  is_alpha a = true -> is_alpha c = true.
Proof.
  intros E Hl Hd Ha; revert u E; induction l as [|x l IH]; intros u E.
  - assert (Hin : In a ("-"%char :: ds)).
    { simpl in E; rewrite E; apply in_or_app; right; right; left; reflexivity. }
    destruct Hin as [<- | Hin]; [discriminate Ha|].
    rewrite forallb_forall in Hd; rewrite (digit_not_alpha _ (Hd _ Hin)) in Ha; discriminate.
  - simpl in Hl; apply andb_true_iff in Hl as [Hx Hl].
    destruct u as [|y u]; simpl in E; injection E as -> E; [exact Hx|].
    exact (IH Hl u E).
Qed.

Lemma not_ends_in_app (cls : ascii -> bool) (a b : str) :
  ~ ends_in cls (a ++ b) -> b <> [] -> ~ ends_in cls b.
Proof.
  intros H Hb (b' & c & -> & Hc); apply H.
  exists (a ++ b'), c; rewrite app_assoc; auto.
Qed.

Lemma not_ends_in_suffix (cls : ascii -> bool) (a b : str) :
  ~ ends_in cls (a ++ b) -> ~ ends_in cls b.
Proof.
  intros H (b' & c & -> & Hc); apply H.
  exists (a ++ b'), c; rewrite app_assoc; auto.
Qed.

(** A key that stands whole in a line is selected. *)
Lemma grep_line_finds_whole_key (s pre m post : str) :
  s = pre ++ m ++ post -> whole_key_at pre m post -> In m (grep_line ticket_bre s).
Proof.
  remember ticket_bre as r eqn:Hr; revert pre m post.
  funelim (grep_line r s); intros pre m post E (Hm & Hpre & Hpost);
    simp grep_line; rewrite ?Heq;
    pose proof (ticket_shape_nonempty _ (proj1 (ticket_bre_shape m) Hm)) as Hne.
  1: destruct pre, m; try discriminate; congruence.
  all: destruct pre as [|x pre]; cbn [app] in E;
    [ rewrite E, (longest_ticket_whole m post Hm Hpost) in Heq
    | injection E as -> -> ].
  all: try (destruct m; solve [congruence | discriminate]).
  all: try (apply (H pre m post eq_refl); repeat split; auto;
            apply (not_ends_in_suffix _ [x]), Hpre).
  - (* the key is at the head *)
    injection Heq as Hn; left.
    rewrite E, <- Hn; apply firstn_app_exact.
  - (* another match at the head: it ends before the key *)
    right.
    assert (Hn : n <= length pre).
    { destruct (le_lt_dec n (length pre)) as [Hle|Hgt]; [exact Hle | exfalso].
      destruct (longest_sound _ _ _ Heq) as [_ Hw].
      apply ticket_bre_shape in Hw as (l & ds & Ew & _ & Hla & _ & Hda).
      destruct (ticket_shape_begins_in_alpha m (proj1 (ticket_bre_shape m) Hm))
        as (a & m' & -> & Ha).
      destruct (@exists_last _ (x :: pre)) as (u & c0 & Eu); [discriminate|].
      apply Hpre; exists u, c0; split; [exact Eu|].
      apply (letter_after_letter l ds u (firstn (n - S (length pre)) (m' ++ post)) c0 a);
        auto.
      rewrite <- Ew.
      change (firstn (S n) (x :: pre ++ (a :: m') ++ post))
        with (x :: firstn n (pre ++ (a :: m') ++ post)).
      rewrite firstn_app, (firstn_all2 pre) by lia.
      replace (n - length pre) with (S (n - S (length pre))) by lia.
      cbn [app firstn]. rewrite app_comm_cons, Eu, <- app_assoc; reflexivity. }
    apply (H (skipn n pre) m post).
    + rewrite skipn_app. replace (n - length pre) with 0 by lia; reflexivity.
    + repeat split; auto.
      rewrite <- (firstn_skipn n pre) in Hpre.
      apply (not_ends_in_suffix _ (x :: firstn n pre)), Hpre.
Qed.

(** ** From lines to the whole text *)

Lemma split_nonempty (sep : ascii) (s : str) : split sep s <> [].
Proof. destruct (split_shape sep s) as (w & ws & -> & _); discriminate. Qed.

Lemma split_no_sep (sep : ascii) (s : str) : ~ In sep s -> split sep s = [s].
Proof.
  induction s as [|c s IH]; intros H; [reflexivity|]; simpl.
  destruct (Ascii.eqb c sep) eqn:E.
  - apply Ascii.eqb_eq in E; subst; exfalso; apply H; left; reflexivity.
  - rewrite IH; [reflexivity | intros Hin; apply H; right; exact Hin].
Qed.

Lemma split_app_sep (sep : ascii) (a b : str) :
  split sep (a ++ sep :: b) = split sep a ++ split sep b.
Proof.
  induction a as [|c a IH]; simpl.
  - rewrite Ascii.eqb_refl; reflexivity.
  - destruct (Ascii.eqb c sep); rewrite IH; [reflexivity|].
    destruct (split sep a) as [|w ws] eqn:E; [|reflexivity].
    exfalso; exact (split_nonempty sep a E).
Qed.

(** The first piece of a split ends at a separator or at the end of the
    text; each later piece starts after a separator and ends likewise. *)
Lemma split_pieces (sep : ascii) (s : str) :
  exists w ws,
    split sep s = w :: ws /\
    (exists q, s = w ++ q /\ (q = [] \/ exists q', q = sep :: q')) /\
    forall l, In l ws ->
      exists a b, s = (a ++ [sep]) ++ l ++ b /\ (b = [] \/ exists b', b = sep :: b').
Proof.
  induction s as [|c s (w & ws & E & (q & Hq & Hq') & Hws)]; simpl.
  - exists [], []; repeat split; [exists []; auto | intros l []].
  - destruct (Ascii.eqb c sep) eqn:Ec.
    + apply Ascii.eqb_eq in Ec; subst c.
      exists [], (split sep s); repeat split; [exists (sep :: s); split; eauto|].
      rewrite E; intros l [<- | H].
      * exists [], q; split; [simpl; rewrite <- Hq; reflexivity | exact Hq'].
      * destruct (Hws l H) as (a & b & -> & Hb).
        exists (sep :: a), b; split; [reflexivity | exact Hb].
    + rewrite E; exists (c :: w), ws; repeat split.
      * exists q; split; [simpl; rewrite <- Hq; reflexivity | exact Hq'].
      * intros l H; destruct (Hws l H) as (a & b & -> & Hb).
        exists (c :: a), b; split; [reflexivity | exact Hb].
Qed.

(** A piece of a split lies between separators or the ends of the text. *)
Lemma split_piece_bounds (sep : ascii) (s l : str) :
  In l (split sep s) ->
  exists a b, s = a ++ l ++ b /\
              (a = [] \/ exists a', a = a' ++ [sep]) /\
              (b = [] \/ exists b', b = sep :: b').
Proof.
  destruct (split_pieces sep s) as (w & ws & -> & (q & Hq & Hq') & Hws).
  intros [<- | H].
  - exists [], q; auto.
  - destruct (Hws l H) as (a & b & -> & Hb); exists (a ++ [sep]), b; eauto.
Qed.

Lemma last_separator (sep : ascii) (pre : str) :
  exists a p, pre = a ++ p /\ ~ In sep p /\ (a = [] \/ exists a', a = a' ++ [sep]).
Proof.
  induction pre as [|c pre (a & p & -> & Hp & Ha)].
  - exists [], []; auto.
  - destruct Ha as [-> | (a' & ->)].
    + destruct (Ascii.eqb c sep) eqn:Ec.
      * apply Ascii.eqb_eq in Ec; subst c.
        exists [sep], p; repeat split; auto. right; exists []; reflexivity.
      * exists [], (c :: p); repeat split; auto.
        intros [-> | H]; [rewrite Ascii.eqb_refl in Ec; discriminate | exact (Hp H)].
    + exists (c :: a' ++ [sep]), p; repeat split; auto.
      right; exists (c :: a'); reflexivity.
Qed.

Lemma first_separator (sep : ascii) (post : str) :
  exists p b, post = p ++ b /\ ~ In sep p /\ (b = [] \/ exists b', b = sep :: b').
Proof.
  induction post as [|c post (p & b & -> & Hp & Hb)].
  - exists [], []; auto.
  - destruct (Ascii.eqb c sep) eqn:Ec.
    + apply Ascii.eqb_eq in Ec; subst c.
      exists [], (sep :: p ++ b); repeat split; eauto.
    + exists (c :: p), b; repeat split; auto.
      intros [-> | H]; [rewrite Ascii.eqb_refl in Ec; discriminate | exact (Hp H)].
Qed.

(** What lies between two separators is a piece of the split. *)
Lemma split_finds_piece (sep : ascii) (a l b : str) :
  ~ In sep l ->
  (a = [] \/ exists a', a = a' ++ [sep]) ->
  (b = [] \/ exists b', b = sep :: b') ->
  In l (split sep (a ++ l ++ b)).
Proof.
  intros Hl Ha Hb.
  assert (H : In l (split sep (l ++ b))).
  { destruct Hb as [-> | (b' & ->)].
    - rewrite app_nil_r, split_no_sep by exact Hl; left; reflexivity.
    - rewrite split_app_sep, split_no_sep by exact Hl; left; reflexivity. }
  destruct Ha as [-> | (a' & ->)]; [exact H|].
  rewrite <- app_assoc; cbn [app]; rewrite split_app_sep.
  apply in_or_app; right; exact H.
Qed.

(** The matches that [grep -o] prints are exactly the keys that stand
    whole in the text. *)
Lemma grep_o_whole_keys (text m : str) :
  In m (grep_o ticket_bre text) <->
  exists pre post, text = pre ++ m ++ post /\ whole_key_at pre m post.
Proof.
  unfold grep_o; rewrite in_flat_map; split.
  - intros (line & Hline & Hm).
    apply split_piece_bounds in Hline as (a & b & -> & Ha & Hb).
    apply grep_line_whole_key in Hm as (pre & post & -> & HM & Hpre & Hpost).
    exists (a ++ pre), (post ++ b); split; [rewrite <- !app_assoc; reflexivity|].
    split; [exact HM|]; split.
    + intros (p & c & E & Hc).
      destruct pre as [|x pre].
      * rewrite app_nil_r in E; destruct Ha as [-> | (a' & ->)];
          [destruct p; discriminate|].
        apply app_inj_tail in E as [_ <-]; discriminate Hc.
      * apply Hpre. destruct (@exists_last _ (x :: pre)) as (u & y & Eu); [discriminate|].
        rewrite Eu, app_assoc in E; apply app_inj_tail in E as [_ ->].
        exists u, c; auto.
    + intros (d & post' & E & Hd).
      destruct post as [|x post]; cbn [app] in E.
      * destruct Hb as [-> | (b' & ->)]; [discriminate|].
        injection E as <- _; discriminate Hd.
      * injection E as -> _; apply Hpost; exists d, post; auto.
  - intros (pre & post & -> & Hm & Hpre & Hpost).
    destruct (last_separator NL pre) as (a & p1 & -> & Hp1 & Ha).
    destruct (first_separator NL post) as (q1 & b & -> & Hq1 & Hb).
    exists (p1 ++ m ++ q1); split.
    + replace ((a ++ p1) ++ m ++ q1 ++ b) with (a ++ (p1 ++ m ++ q1) ++ b)
        by (rewrite <- !app_assoc; reflexivity).
      apply split_finds_piece; auto.
      intros H; apply in_app_or in H as [H | H]; [exact (Hp1 H)|].
      apply in_app_or in H as [H | H]; [|exact (Hq1 H)].
      exact (ticket_shape_no_newline m (proj1 (ticket_bre_shape m) Hm) H).
    + apply (grep_line_finds_whole_key _ p1 m q1 eq_refl); split; [exact Hm|]; split.
      * apply (not_ends_in_suffix _ a), Hpre.
      * intros (d & q' & -> & Hd); apply Hpost; exists d, (q' ++ b); auto.
Qed.

(** X1.  The candidates of lines 168 to 170 are exactly the keys that stand
    whole in the commit log (no letter right before, no digit right
    after), uppercased: a key is never cut out of a longer run. *)
Theorem candidates_are_the_whole_keys (log_text k : str) :
  In k (extract_ticket_keys log_text) <->
  exists pre m post,
    log_text = pre ++ m ++ post /\ whole_key_at pre m post /\ k = toUpperCase m.
Proof.
  rewrite extract_ticket_keys_In; split.
  - intros (m & Hm & ->); apply grep_o_whole_keys in Hm as (pre & post & E & H).
    exists pre, m, post; auto.
  - intros (pre & m & post & E & H & ->); exists m; split; [|reflexivity].
    apply grep_o_whole_keys; exists pre, post; auto.
Qed.

(* ===================================================================== *)
(** * More on findRelatedJiraTicket *)
(* ===================================================================== *)

Lemma fetched_keys_In (jiraProjects : list value) (key : value) :
  In key (fetched_keys jiraProjects) <->
  exists item, In item jiraProjects /\ get_prop item (lit "key") = Return key.
Proof.
  unfold fetched_keys; rewrite in_flat_map; split.
  - intros (item & Hin & H); exists item; split; [exact Hin|].
    destruct (get_prop item (lit "key")) as [k|e]; [|destruct H].
    destruct H as [-> | []]; reflexivity.
  - intros (item & Hin & H); exists item; split; [exact Hin|].
    rewrite H; left; reflexivity.
Qed.

(** A key with two letters or more before the hyphen passes the stricter
    pattern. *)
Lemma strict_regex_accepts_shape (letters digits : str) :
  2 <= length letters -> forallb is_alpha letters = true ->
  digits <> [] -> forallb is_digit digits = true ->
  match_truthy strict_regex (letters ++ "-"%char :: digits) = true.
Proof.
  intros Hlen Hl Hd Hda.
  unfold match_truthy, RegExp_test, strict_regex; cbn [anchored body].
  apply search_Matches; exists (letters ++ "-"%char :: digits); split;
    [apply substring_of_refl|].
  destruct letters as [|x [|y l]]; simpl in Hlen; try lia.
  simpl in Hl; apply andb_true_iff in Hl as [Hx Hyl].
  change ((x :: y :: l) ++ "-"%char :: digits)
    with ([x] ++ (y :: l) ++ ["-"%char] ++ digits).
  apply M_seq; [constructor; exact Hx|].
  apply M_seq; [apply Matches_plus_class; split;
                  [discriminate | apply alpha_is_alnum; exact Hyl]|].
  apply M_seq; [apply Matches_chr; reflexivity | apply Matches_plus_class; auto].
Qed.

(** Line 182 on a candidate: two letters or more, and a listed project. *)
Lemma accepts_candidate_iff (jiraProjects : list value) (log_text k : str) :
  In k (extract_ticket_keys log_text) ->
  accepts (fetched_keys jiraProjects) k = true <->
  2 <= length (alphabetic_prefix k) /\ lists_project jiraProjects (alphabetic_prefix k).
Proof.
  intros Hin; split.
  - intros H; destruct (accepted_candidate _ _ _ Hin H) as (_ & _ & _ & _ & Hlen & _ & Hkey).
    split; [exact Hlen | apply fetched_keys_In, Hkey].
  - intros [Hlen Hkey].
    destruct (extract_ticket_keys_shape _ _ Hin) as (l & d & -> & Hl & Hla & Hd & Hda).
    rewrite (alphabetic_prefix_shape l d Hla Hda) in *.
    unfold accepts; cbv zeta; fold (alphabetic_prefix (l ++ "-"%char :: d)).
    rewrite (alphabetic_prefix_shape l d Hla Hda).
    rewrite strict_regex_accepts_shape by assumption; cbn [andb].
    apply includes_str_In, fetched_keys_In, Hkey.
Qed.

(** X2.  When the tracker answers, the call succeeds exactly when every
    candidate has a project part of two letters or more that is the key of
    a listed project; it then returns all the candidates. *)
Theorem success_iff_all_candidates_listed (w : World) (base head : value) (ci : bool)
    (st : State) (jiraProjects : list value)
    (Hprojects : listProjects w = Resolved jiraProjects) :
  let result := fst (findRelatedJiraTicket w base head ci st) in
  let listed k :=
    2 <= length (alphabetic_prefix k) /\ lists_project jiraProjects (alphabetic_prefix k) in
  ((forall k, In k (candidates w base head ci) -> listed k) <->
   result = Return (candidates w base head ci)) /\
  ((exists k, In k (candidates w base head ci) /\ ~ listed k) <->
   result = Throw not_found) /\
  (forall l, result = Return l -> l = candidates w base head ci).
Proof.
  cbv zeta; rewrite findRelatedJiraTicket_outcome, Hprojects.
  set (cs := candidates w base head ci).
  assert (Hiff : forall k, In k cs ->
            accepts (fetched_keys jiraProjects) k = true <->
            2 <= length (alphabetic_prefix k) /\
            lists_project jiraProjects (alphabetic_prefix k)).
  { intros k Hk; exact (accepts_candidate_iff jiraProjects _ k Hk). }
  destruct (forallb (accepts (fetched_keys jiraProjects)) cs) eqn:E.
  - rewrite forallb_forall in E; split; [|split].
    + split; [reflexivity|].
      intros _ k Hk; apply Hiff; auto.
    + split; [|discriminate].
      intros (k & Hk & Hno); exfalso; apply Hno, Hiff; auto.
    + intros l [= <-]; reflexivity.
  - assert (Hex : exists k, In k cs /\ accepts (fetched_keys jiraProjects) k = false).
    { clear Hiff; induction cs as [|k cs IH]; [discriminate|].
      simpl in E; apply andb_false_iff in E as [E | E].
      - exists k; split; [left; reflexivity | exact E].
      - destruct (IH E) as (k' & Hk' & H'); exists k'; split; [right|]; assumption. }
    destruct Hex as (k & Hk & Hacc); split; [|split].
    + split; [|discriminate].
      intros Hall; apply (Hiff k Hk) in Hall; congruence.
    + split; [reflexivity|].
      intros _; exists k; split; [exact Hk|].
      intros H; apply (Hiff k Hk) in H; congruence.
    + discriminate.
Qed.

(** ** The calls that findRelatedJiraTicket makes *)

Lemma push_project_key_events (item : value) (st : State) (acc : list value) :
  jiraProjectKeysArray (vars st) = Some acc ->
  exists st',
    async_call (push_project_key item) st = (Return tt, st') /\
    jiraProjectKeysArray (vars st') = Some (acc ++ fetched_keys [item]) /\
    verifiedJiraTicketsList (vars st') = verifiedJiraTicketsList (vars st) /\
    trace st' = trace st ++ map unhandled_rejection (key_errors [item]).
Proof.
  intros Hacc; unfold push_project_key, fetched_keys, key_errors; cbn [flat_map].
  step. destruct (get_prop item (lit "key")) as [key|e]; cbn.
  - rewrite Hacc; cbn; eexists; repeat split; rewrite app_nil_r; reflexivity.
  - eexists; repeat split; cbn; rewrite app_nil_r; assumption.
Qed.

Lemma collect_project_keys_events (jiraProjects : list value) (st : State)
    (acc : list value) :
  jiraProjectKeysArray (vars st) = Some acc ->
  exists st',
    collect_project_keys jiraProjects st = (Return tt, st') /\
    jiraProjectKeysArray (vars st') = Some (acc ++ fetched_keys jiraProjects) /\
    verifiedJiraTicketsList (vars st') = verifiedJiraTicketsList (vars st) /\
    trace st' = trace st ++ map unhandled_rejection (key_errors jiraProjects).
Proof.
  unfold collect_project_keys, forEach_async.
  revert st acc; induction jiraProjects as [|item rest IH]; intros st acc Hacc.
  - exists st; cbn; rewrite !app_nil_r; auto.
  - rewrite for_cons, bind_run.
    destruct (push_project_key_events item st acc Hacc) as (s1 & -> & K1 & V1 & T1).
    destruct (IH s1 _ K1) as (st' & -> & K & V & T).
    exists st'; split; [reflexivity|].
    change (item :: rest) with ([item] ++ rest).
    unfold fetched_keys, key_errors in *; rewrite !flat_map_app, map_app.
    rewrite K, V, V1, T, T1, <- !app_assoc; auto.
Qed.

Lemma verify_tickets_events (tickets : list str) (st : State) (keys : list value)
    (acc : list str) :
  jiraProjectKeysArray (vars st) = Some keys ->
  verifiedJiraTicketsList (vars st) = Some acc ->
  trace (snd (verify_tickets tickets st)) = trace st.
Proof.
  unfold verify_tickets.
  revert st acc; induction tickets as [|ticket rest IH]; intros st acc Hkeys Hacc;
    [reflexivity|].
  rewrite for_cons, bind_run; unfold verify_ticket at 1; step.
  rewrite Hkeys; cbn. destruct (accepts keys ticket); cbn; [|reflexivity].
  rewrite Hacc; cbn.
  erewrite IH; [reflexivity | exact Hkeys | reflexivity].
Qed.

(** With the output of the pipeline as the answer of [exec], the call is
    the one of [findRelatedJiraTicket]. *)
Lemma findRelatedJiraTicket_exec_resolved (exec_answer : str -> promise str) (w : World)
    (base head : value) (ci : bool) (st : State) :
  exec_answer (git_command (branch_ref ci base) (branch_ref ci head)) =
    Resolved (pipeline_stdout (log_text_of w base head ci)) ->
  findRelatedJiraTicket_exec exec_answer w base head ci st =
  findRelatedJiraTicket w base head ci st.
Proof.
  unfold findRelatedJiraTicket_exec, findRelatedJiraTicket, log_text_of, branch_ref.
  destruct ci; intros Hout; step; change (ToString (VStr ?x)) with x;
    rewrite Hout; reflexivity.
Qed.

(** X3.  Every call runs the git pipeline once.  When that command fails,
    the call throws the failure and the tracker is not asked.  Otherwise
    the call asks the tracker for its projects once and makes no other
    call, also when the log has no candidate, and a rejected listing is
    thrown as it is.  The references carry [origin/] exactly when the
    call comes from CI. *)
Theorem one_pipeline_one_listing (exec_answer : str -> promise str) (w : World)
    (base head : value) (ci : bool) (st : State) :
  let command := git_command (branch_ref ci base) (branch_ref ci head) in
  let run := findRelatedJiraTicket_exec exec_answer w base head ci st in
  new_events st (snd run) =
    exec command ::
    match exec_answer command with
    | Rejected _ => []
    | Resolved _ =>
        jira_listProjects ::
        match listProjects w with
        | Resolved jiraProjects => map unhandled_rejection (key_errors jiraProjects)
        | Rejected _ => []
        end
    end /\
  (forall e, exec_answer command = Rejected e -> fst run = Throw e) /\
  (forall out e, exec_answer command = Resolved out -> listProjects w = Rejected e ->
                 fst run = Throw e) /\
  (exec_answer command = Resolved (pipeline_stdout (log_text_of w base head ci)) ->
   run = findRelatedJiraTicket w base head ci st).
Proof.
  cbv zeta; split; [|split; [|split]].
  - apply new_events_app.
    unfold findRelatedJiraTicket_exec, branch_ref.
    destruct ci; step; change (ToString (VStr ?x)) with x.
    all: destruct (exec_answer _) as [out|e]; cbn; [|reflexivity].
    all: destruct (listProjects w) as [jiraProjects|e]; cbn;
      [|rewrite <- app_assoc; reflexivity].
    all: match goal with |- context [collect_project_keys _ ?s] =>
           destruct (collect_project_keys_events jiraProjects s [] eq_refl)
             as (s1 & -> & K1 & V1 & T1)
         end; cbn in K1, V1, T1.
    all: match goal with |- context [verify_tickets ?l ?s] =>
           pose proof (verify_tickets_events l s _ [] K1 V1) as T2;
           destruct (verify_tickets l s) as [[[]|e] s2]
         end; cbn in T2 |- *.
    all: try (destruct (verifiedJiraTicketsList (vars s2)); cbn).
    all: rewrite T2, T1; repeat (rewrite <- app_assoc; cbn [app]); reflexivity.
  - intros e He; revert He; unfold findRelatedJiraTicket_exec, branch_ref.
    destruct ci; intros He; step; change (ToString (VStr ?x)) with x;
      rewrite He; reflexivity.
  - intros out e Hout He; revert Hout; unfold findRelatedJiraTicket_exec, branch_ref.
    destruct ci; intros Hout; step; change (ToString (VStr ?x)) with x;
      rewrite Hout; cbn; rewrite He; reflexivity.
  - apply findRelatedJiraTicket_exec_resolved.
Qed.

(** ** What a call returns *)

Lemma returned_list_is_candidates (w : World) (base head : value) (ci : bool)
    (st : State) (l : list str) :
  fst (findRelatedJiraTicket w base head ci st) = Return l ->
  l = candidates w base head ci.
Proof.
  rewrite findRelatedJiraTicket_outcome.
  destruct (listProjects w) as [ps|e]; [|discriminate].
  destruct (forallb _ _); [|discriminate]. intros [= <-]; reflexivity.
Qed.

Lemma toUpperCase_idempotent (s : str) : toUpperCase (toUpperCase s) = toUpperCase s.
Proof.
  unfold toUpperCase; rewrite map_map; apply map_ext; intros c; apply upcase_idempotent.
Qed.

(** X4.  The returned keys are pairwise distinct and in upper case, so that
    no two of them differ by letter case only. *)
Theorem returned_keys_distinct_uppercase (w : World) (base head : value) (ci : bool)
    (st : State) (l : list str)
    (Hreturn : fst (findRelatedJiraTicket w base head ci st) = Return l) :
  NoDup l /\
  (forall k, In k l -> toUpperCase k = k) /\
  (forall k1 k2, In k1 l -> In k2 l -> toUpperCase k1 = toUpperCase k2 -> k1 = k2).
Proof.
  apply returned_list_is_candidates in Hreturn; subst l; unfold candidates.
  assert (Hup : forall k, In k (extract_ticket_keys (log_text_of w base head ci)) ->
                          toUpperCase k = k).
  { intros k Hk; apply extract_ticket_keys_In in Hk as (m & _ & ->).
    apply toUpperCase_idempotent. }
  split; [rewrite extract_ticket_keys_eq; apply new_Set_NoDup|].
  split; [exact Hup|].
  intros k1 k2 H1 H2; rewrite (Hup k1 H1), (Hup k2 H2); auto.
Qed.

(** X5.  The outcome of a call does not depend on what earlier calls left in
    the module variables. *)
Theorem outcome_ignores_earlier_calls (w : World) (base head : value) (ci : bool)
    (st1 st2 : State) :
  fst (findRelatedJiraTicket w base head ci st1) =
  fst (findRelatedJiraTicket w base head ci st2).
Proof. rewrite !findRelatedJiraTicket_outcome; reflexivity. Qed.

(** X6.  When the tracker answers, the call returns the empty list exactly
    when no key stands whole in the commit log; the tracker's projects do
    not matter then. *)
Theorem empty_list_iff_no_key (w : World) (base head : value) (ci : bool) (st : State)
    (jiraProjects : list value)
    (Hprojects : listProjects w = Resolved jiraProjects) :
  fst (findRelatedJiraTicket w base head ci st) = Return [] <->
  forall pre m post,
    log_text_of w base head ci = pre ++ m ++ post -> ~ whole_key_at pre m post.
Proof.
  rewrite findRelatedJiraTicket_outcome, Hprojects; unfold candidates.
  set (text := log_text_of w base head ci).
  split.
  - intros H pre m post E Hm.
    assert (Hin : In (toUpperCase m) (extract_ticket_keys text)).
    { apply extract_ticket_keys_In; exists m; split; [|reflexivity].
      apply grep_o_whole_keys; exists pre, post; auto. }
    destruct (forallb _ _); [|discriminate].
    injection H as H; rewrite H in Hin; destruct Hin.
  - intros Hnone.
    destruct (extract_ticket_keys text) as [|k ks] eqn:E; [reflexivity|].
    exfalso.
    assert (Hin : In k (extract_ticket_keys text)) by (rewrite E; left; reflexivity).
    apply extract_ticket_keys_In in Hin as (m & Hm & _).
    apply grep_o_whole_keys in Hm as (pre & post & Et & Hw).
    exact (Hnone pre m post Et Hw).
Qed.

(** X7.  A key whose project part is a single letter makes the call fail,
    whatever projects the tracker lists. *)
Theorem one_letter_project_always_fails (w : World) (base head : value) (ci : bool)
    (st : State) (jiraProjects : list value) (pre post digits : str) (c : ascii)
    (Hprojects : listProjects w = Resolved jiraProjects)
    (Htext : log_text_of w base head ci = pre ++ (c :: "-"%char :: digits) ++ post)
    (Hkey : whole_key_at pre (c :: "-"%char :: digits) post) :
  fst (findRelatedJiraTicket w base head ci st) = Throw not_found.
Proof.
  rewrite findRelatedJiraTicket_outcome, Hprojects; unfold candidates.
  set (k := toUpperCase (c :: "-"%char :: digits)).
  assert (Hin : In k (extract_ticket_keys (log_text_of w base head ci))).
  { apply extract_ticket_keys_In; exists (c :: "-"%char :: digits); split; [|reflexivity].
    apply grep_o_whole_keys; exists pre, post; auto. }
  assert (Hacc : accepts (fetched_keys jiraProjects) k = false).
  { destruct (accepts (fetched_keys jiraProjects) k) eqn:E; [exfalso | reflexivity].
    apply (accepts_candidate_iff jiraProjects _ k Hin) in E as [Hlen _].
    destruct Hkey as (Hm & _).
    apply ticket_bre_shape in Hm as (l & d & El & Hl & Hla & Hd & Hda).
    destruct l as [|x l]; [congruence|]; injection El as -> El.
    simpl in Hla; apply andb_true_iff in Hla as [Hx Hla].
    assert (El' : [] ++ "-"%char :: digits = l ++ "-"%char :: d) by exact El.
    apply split_at_first_unique in El' as [<- <-];
      [| intros [] | apply hyphen_not_alpha_or_digit; auto].
    unfold k in Hlen; cbn [toUpperCase map] in Hlen.
    fold (toUpperCase digits) in Hlen.
    rewrite (toUpperCase_digits digits Hda) in Hlen.
    change (upcase x :: upcase "-"%char :: digits)
      with ([upcase x] ++ "-"%char :: digits) in Hlen.
    rewrite alphabetic_prefix_shape in Hlen; [simpl in Hlen; lia | | exact Hda].
    simpl; rewrite andb_true_r; apply upcase_alpha, Hx. }
  rewrite (forallb_rejects _ _ k Hin Hacc); reflexivity.
Qed.

(** ** The order of the candidates *)

Lemma fold_Set_add_fresh (l acc : list str) :
  NoDup (acc ++ l) -> fold_left Set_add l acc = acc ++ l.
Proof.
  revert acc; induction l as [|x l IH]; intros acc H; cbn; [rewrite app_nil_r; reflexivity|].
  assert (Hx : includes acc x = false).
  { destruct (includes acc x) eqn:E; [|reflexivity].
    apply includes_In in E. apply NoDup_remove_2 in H.
    exfalso; apply H, in_or_app; left; exact E. }
  unfold Set_add at 2; rewrite Hx, IH, <- app_assoc; [reflexivity|].
  rewrite <- app_assoc; exact H.
Qed.

Lemma new_Set_of_distinct (l : list str) : NoDup l -> new_Set l = l.
Proof. intros H; unfold new_Set; rewrite fold_Set_add_fresh; auto. Qed.

Lemma sorted_NoDup (l : list str) : StronglySorted str_lt l -> NoDup l.
Proof.
  induction 1 as [|x l _ IH Hx]; constructor; [|exact IH].
  intros Hin; rewrite Forall_forall in Hx; exact (str_lt_irrefl x (Hx x Hin)).
Qed.

(** X18.  When the keys are written in upper case throughout the commit
    log, the candidates are the distinct keys in increasing byte order, as
    [sort -u] printed them. *)
Theorem uppercase_keys_come_sorted (log_text : str)
    (Hupper : forall m, In m (grep_o ticket_bre log_text) -> toUpperCase m = m) :
  extract_ticket_keys log_text = sort_u (grep_o ticket_bre log_text) /\
  StronglySorted str_lt (extract_ticket_keys log_text).
Proof.
  assert (E : extract_ticket_keys log_text = sort_u (grep_o ticket_bre log_text)).
  { rewrite extract_ticket_keys_eq.
    replace (map toUpperCase (sort_u (grep_o ticket_bre log_text)))
      with (sort_u (grep_o ticket_bre log_text)).
    - apply new_Set_of_distinct, sorted_NoDup, sort_u_sorted.
    - rewrite <- (map_id (sort_u _)) at 1; apply map_ext_in.
      intros m Hm; symmetry; apply Hupper, sort_u_In, Hm. }
  split; [exact E | rewrite E; apply sort_u_sorted].
Qed.

(* ===================================================================== *)
(** * More on listXmlReports and importXmlDataToXray *)
(* ===================================================================== *)

(** X8.  listXmlReports returns the names of the listing that have [xml]
    after at least one character, with no line terminator up to there;
    it keeps their order and multiplicity, takes nothing from earlier
    calls, and leaves the returned list in [xmlReportFiles]. *)
Theorem listXmlReports_selects (w : World) (dir : str) (files : list str) (st : State)
    (Hdir : readdir w dir = Return files) :
  let run := listXmlReports w dir st in
  exists keep : str -> bool,
    fst run = Return (filter keep files) /\
    xmlReportFiles (vars (snd run)) = Some (filter keep files) /\
    forall name,
      keep name = true <->
      exists before c after,
        name = before ++ c :: lit "xml" ++ after /\
        forallb not_line_terminator (before ++ [c]) = true.
Proof.
  cbv zeta; exists (RegExp_test xml_regex).
  rewrite (listXmlReports_run w dir files st Hdir); cbn [fst snd vars].
  repeat split; apply xml_regex_accepts.
Qed.

(** X9.  Every listed name that ends in [.xml] and has no line terminator is
    returned. *)
Theorem listXmlReports_keeps_xml_reports (w : World) (dir : str) (files : list str)
    (st : State) (base : str)
    (Hdir : readdir w dir = Return files)
    (Hin : In (base ++ lit ".xml") files)
    (Hbase : forallb not_line_terminator base = true) :
  exists l, fst (listXmlReports w dir st) = Return l /\ In (base ++ lit ".xml") l.
Proof.
  rewrite (listXmlReports_filters w dir files st Hdir).
  eexists; split; [reflexivity|].
  apply filter_In; split; [exact Hin|].
  apply xml_regex_accepts; exists base, "."%char, []; split.
  - rewrite app_nil_r; reflexivity.
  - rewrite forallb_app, Hbase; reflexivity.
Qed.

(** X10.  When the directory cannot be read, listXmlReports throws that error,
    and importXmlDataToXray throws it too without authenticating or sending
    anything. *)
Theorem unreadable_directory_stops_import (w : World) (dir : str) (key : value)
    (st : State) (e : exn)
    (Hdir : readdir w dir = Throw e) :
  fst (listXmlReports w dir st) = Throw e /\
  xmlReportFiles (vars (snd (listXmlReports w dir st))) = Some [] /\
  fst (importXmlDataToXray w dir key st) = Throw e /\
  new_events st (snd (importXmlDataToXray w dir key st)) = [fs_readdirSync dir] /\
  xrayToken (vars (snd (importXmlDataToXray w dir key st))) = xrayToken (vars st).
Proof.
  unfold importXmlDataToXray, listXmlReports; step; rewrite Hdir; cbn.
  repeat split. apply new_events_app; reflexivity.
Qed.

(** ** The authentication exchange *)

Lemma authenticate_granted (w : World) (st : State) (res body : value) :
  needle_response w (authenticate_request w) = Resolved res ->
  get_prop res (lit "body") = Return body ->
  authenticate w st =
    (Return tt,
     mkState (set_xrayToken body (vars st))
       (trace st ++ [needle (authenticate_request w);
                     console_log (LStr (lit "Generated Xray token => " ++ ToString body))])
       (next_stream st) (pending st)).
Proof.
  intros Hres Hbody; unfold authenticate; step; rewrite Hres; cbn; rewrite Hbody; cbn.
  rewrite <- app_assoc; reflexivity.
Qed.

Lemma authenticate_unreadable (w : World) (st : State) (res : value) (e : exn) :
  needle_response w (authenticate_request w) = Resolved res ->
  get_prop res (lit "body") = Throw e ->
  exists st',
    authenticate w st = (Return tt, st') /\
    vars st' = vars st /\ next_stream st' = next_stream st /\ pending st' = pending st /\
    trace st' = trace st ++ [needle (authenticate_request w); console_log (LErr e)].
Proof.
  intros Hres Hbody; unfold authenticate; step; rewrite Hres; cbn; rewrite Hbody; cbn.
  eexists; repeat split; cbn; rewrite <- app_assoc; reflexivity.
Qed.

(** X11.  When the authentication is granted, its body is logged in clear,
    stored in [xrayToken] and sent as the bearer token of every import
    request of the call; the authentication request is sent once, before
    any file is opened. *)
Theorem granted_token_is_logged_and_used (w : World) (dir : str) (key : value)
    (files : list str) (st : State) (res body : value)
    (Hdir : readdir w dir = Return files)
    (Hres : needle_response w (authenticate_request w) = Resolved res)
    (Hbody : get_prop res (lit "body") = Return body) :
  let run := importXmlDataToXray w dir key st in
  let matching := filter (RegExp_test xml_regex) files in
  fst run = Return tt /\
  new_events st (snd run) =
    [fs_readdirSync dir; needle (authenticate_request w);
     console_log (LStr (lit "Generated Xray token => " ++ ToString body))] ++
    import_events w dir key body (next_stream st) matching /\
  xrayToken (vars (snd run)) = body /\
  Forall (fun r => authorization r = Some (lit "Bearer " ++ ToString body))
         (import_requests (new_events st (snd run))).
Proof.
  cbv zeta; unfold importXmlDataToXray.
  rewrite bind_run, (listXmlReports_run _ _ _ _ Hdir), bind_run.
  rewrite (authenticate_granted w _ res body Hres Hbody).
  step. rewrite import_loop_run; cbn.
  assert (Hev : new_events st
            {| vars := set_xrayToken body
                         (set_xmlReportFiles (Some (filter (RegExp_test xml_regex) files))
                            (vars st));
               trace := ((trace st ++ [fs_readdirSync dir]) ++
                         [needle (authenticate_request w);
                          console_log (LStr (lit "Generated Xray token => " ++ ToString body))]) ++
                        import_events w dir key body (next_stream st)
                          (filter (RegExp_test xml_regex) files);
               next_stream := next_stream st +
                              length (filter (RegExp_test xml_regex) files);
               pending := pending st ++
                          map AfterImport (filter (RegExp_test xml_regex) files) |} =
            [fs_readdirSync dir; needle (authenticate_request w);
             console_log (LStr (lit "Generated Xray token => " ++ ToString body))] ++
            import_events w dir key body (next_stream st)
              (filter (RegExp_test xml_regex) files)).
  { apply new_events_app; cbn; rewrite <- !app_assoc; reflexivity. }
  rewrite Hev; repeat split.
  rewrite import_requests_app, import_requests_import_events.
  change (import_requests [_; _; _]) with (@nil request); cbn [app].
  apply Forall_forall; intros r Hr; apply in_map_iff in Hr as (h & <- & _); reflexivity.
Qed.

(** X12.  An authentication answer without readable body ([undefined] or
    [null]) is logged as an error like a rejection, the token keeps its
    earlier value, and the imports are sent all the same. *)
Theorem unreadable_authentication_answer (w : World) (dir : str) (key : value)
    (files : list str) (st : State) (res : value) (e : exn)
    (Hdir : readdir w dir = Return files)
    (Hres : needle_response w (authenticate_request w) = Resolved res)
    (Hbody : get_prop res (lit "body") = Throw e) :
  let run := importXmlDataToXray w dir key st in
  let matching := filter (RegExp_test xml_regex) files in
  fst run = Return tt /\
  new_events st (snd run) =
    [fs_readdirSync dir; needle (authenticate_request w); console_log (LErr e)] ++
    import_events w dir key (xrayToken (vars st)) (next_stream st) matching /\
  xrayToken (vars (snd run)) = xrayToken (vars st).
Proof.
  cbv zeta; unfold importXmlDataToXray.
  rewrite bind_run, (listXmlReports_run _ _ _ _ Hdir), bind_run.
  match goal with |- context [authenticate w ?s] =>
    destruct (authenticate_unreadable w s res e Hres Hbody)
      as (s1 & -> & Hv & Hn & Hp & Ht) end.
  cbn in Hv, Hn, Hp, Ht.
  step. rewrite Hv; cbn. rewrite import_loop_run; cbn.
  rewrite Hv, Hn, Ht; cbn. repeat split.
  apply new_events_app; cbn; rewrite <- !app_assoc; reflexivity.
Qed.


(* ===================================================================== *)
(** * More on linking and annotating *)
(* ===================================================================== *)

(** X14.  linkTestExecutionResults returns normally for every list; it issues
    one link update per ticket of the list, in order and repeated if the
    ticket is repeated, all with the same link to the execution ticket,
    and logs the message for the empty list only.  The [try] of the call
    catches nothing: a rejected update is thrown later by the callback. *)
Theorem one_link_update_per_ticket (tickets : list str) (key : value) (st : State) :
  let run := linkTestExecutionResults tickets key st in
  fst run = Return tt /\
  new_events st (snd run) =
    match tickets with
    | [] => [console_log (LStr (no_related_message key))]
    | _ => []
    end ++ map (fun t => jira_updateIssue t (link_update key)) tickets /\
  link_inwardIssue_key (link_update key) = key /\
  pending (snd run) = pending st ++ map (fun t => AfterLink t key) tickets /\
  forall t e s, after_link t key (Rejected e) s = (Throw e, s).
Proof.
  cbv zeta; unfold linkTestExecutionResults; destruct tickets as [|t rest].
  - step; split; [reflexivity|].
    split; [apply new_events_app; reflexivity | repeat split].
    symmetry; apply app_nil_r.
  - change (js_bool_gt_0 (js_not_number (length (t :: rest)))) with false.
    step0; rewrite link_loop_run; cbn; split; [reflexivity|].
    split; [apply new_events_app; reflexivity | repeat split].
Qed.

(** X15.  Among the events of addInfoAboutExecution, the calls to the tracker
    are one attachment per ticket followed by one comment per ticket, all
    comments with the same text; for the empty list there is none. *)
Theorem attachments_then_comments (tickets : list str) (path : str)
    (githubRepo currentBranchName env actor githubRunId reportLink : value) (st : State) :
  let run := addInfoAboutExecution tickets path githubRepo currentBranchName env actor
               githubRunId reportLink st in
  let comment :=
    execution_comment githubRepo currentBranchName env actor githubRunId reportLink in
  fst run = Return tt /\
  filter is_tracker_call (new_events st (snd run)) =
    map (fun t => jira_addAttachmentOnIssue t (next_stream st)) tickets ++
    map (fun t => jira_addCommentAdvanced t comment) tickets /\
  (tickets = [] ->
   new_events st (snd run) =
     [console_log (LArr []); fs_createReadStream path (next_stream st);
      console_log (LStr (lit "There are no related tickets where test report can be linked"))]).
Proof.
  cbv zeta.
  destruct (addInfoAboutExecution_events tickets path githubRepo currentBranchName env
              actor githubRunId reportLink st) as [Hret Hev].
  cbv zeta in Hev; rewrite Hev; split; [exact Hret|]; split.
  - rewrite filter_app; cbn [filter is_tracker_call app].
    destruct tickets as [|t rest]; [reflexivity|].
    rewrite filter_app, !filter_map_all by reflexivity; reflexivity.
  - intros ->; reflexivity.
Qed.

(** X16.  The rest of the attachment and comment callbacks never throws,
    whatever the tracker answers, and a rejection is logged. *)
Theorem annotation_callbacks_swallow_errors (ticket : str) (st : State) :
  (forall response, exists st', after_attach ticket response st = (Return tt, st')) /\
  (forall response, exists st', after_comment ticket response st = (Return tt, st')) /\
  (forall e, new_events st (snd (after_attach ticket (Rejected e) st)) =
             [console_log (LErr e)]) /\
  (forall e, new_events st (snd (after_comment ticket (Rejected e) st)) =
             [console_log (LErr e)]).
Proof.
  split; [intros r; apply after_attach_returns|].
  split; [intros r; apply after_comment_returns|].
  split; intros e; apply new_events_app; reflexivity.
Qed.

(** X17.  The events of a call of updateTestExecutionTicketStatus are one
    request to the tracker, for transition 31 of the given ticket, followed
    by one line: the success message on [console.log] when the tracker
    accepts, the error on [console.error] when it rejects.  The call never
    throws, leaves the module variables as they were and leaves no work
    pending. *)
Theorem status_update_swallows_errors
    (transitionIssue : value -> IssueTransition -> promise value)
    (testExecutionKey : value) (st : State) :
  let run := updateTestExecutionTicketStatus transitionIssue testExecutionKey st in
  let request := jira_transitionIssue testExecutionKey (mkIssueTransition (lit "31")) in
  fst run = Return tt /\
  vars (snd run) = vars st /\
  pending (snd run) = pending st /\
  new_events st (snd run) =
    [request;
     match transitionIssue testExecutionKey (mkIssueTransition (lit "31")) with
     | Resolved _ =>
         console_log (LStr (lit "Successfully set status to Done for "
                            ++ ToString testExecutionKey))
     | Rejected e => console_error (LErr e)
     end] /\
  filter is_tracker_call (new_events st (snd run)) = [request].
Proof.
  cbv zeta.
  assert (Hrun : exists line,
            updateTestExecutionTicketStatus transitionIssue testExecutionKey st =
              (Return tt,
               mkState (vars st)
                 (trace st ++
                  [jira_transitionIssue testExecutionKey (mkIssueTransition (lit "31")); line])
                 (next_stream st) (pending st)) /\
            is_tracker_call line = false /\
            line =
              match transitionIssue testExecutionKey (mkIssueTransition (lit "31")) with
              | Resolved _ =>
                  console_log (LStr (lit "Successfully set status to Done for "
                                     ++ ToString testExecutionKey))
              | Rejected e => console_error (LErr e)
              end).
  { unfold updateTestExecutionTicketStatus; step.
    destruct (transitionIssue testExecutionKey _) as [res|e]; cbn;
      eexists; (split; [rewrite <- app_assoc; reflexivity | split; reflexivity]). }
  destruct Hrun as (line & -> & Hline & <-); cbn [fst snd vars pending].
  rewrite (new_events_app st _
             [jira_transitionIssue testExecutionKey (mkIssueTransition (lit "31")); line])
    by reflexivity.
  repeat split. cbn [filter is_tracker_call]; rewrite Hline; reflexivity.
Qed.

(* ===================================================================== *)
(** * Using the functions together *)
(* ===================================================================== *)

Lemma distinct_tickets_distinct_updates (update : IssueLink) (l : list str) :
  NoDup l -> NoDup (map (fun t => jira_updateIssue t update) l).
Proof.
  induction 1 as [|t l Ht _ IH]; cbn; constructor; [|exact IH].
  intros H; apply in_map_iff in H as (u & [= ->] & Hu); exact (Ht Hu).
Qed.

(** X19.  Linking the list that findRelatedJiraTicket returned updates each
    verified ticket once, and no ticket twice. *)
Theorem verified_tickets_are_linked_once (w : World) (base head key : value) (ci : bool)
    (st : State) (l : list str)
    (Hreturn : fst (findRelatedJiraTicket w base head ci st) = Return l) :
  let s1 := snd (findRelatedJiraTicket w base head ci st) in
  let run := linkTestExecutionResults l key s1 in
  fst run = Return tt /\
  filter is_tracker_call (new_events s1 (snd run)) =
    map (fun t => jira_updateIssue t (link_update key)) l /\
  NoDup (map (fun t => jira_updateIssue t (link_update key)) l).
Proof.
  cbv zeta.
  assert (Hnd : NoDup l).
  { apply returned_list_is_candidates in Hreturn; subst l; unfold candidates.
    rewrite extract_ticket_keys_eq; apply new_Set_NoDup. }
  set (s1 := snd (findRelatedJiraTicket w base head ci st)).
  unfold linkTestExecutionResults; destruct l as [|t rest].
  - step; repeat split; [|constructor].
    rewrite (new_events_app s1 _ [console_log (LStr (no_related_message key))])
      by reflexivity; reflexivity.
  - change (js_bool_gt_0 (js_not_number (length (t :: rest)))) with false.
    step0; rewrite link_loop_run; cbn [fst snd]; repeat split.
    + rewrite (new_events_app s1 _
                 (map (fun t0 => jira_updateIssue t0 (link_update key)) (t :: rest)))
        by reflexivity.
      apply filter_map_all; reflexivity.
    + apply distinct_tickets_distinct_updates, Hnd.
Qed.

(** X20.  When the creation of the execution ticket fails, the [null] it
    returns, passed on as the execution key, reaches the add-on as
    [testExecKey=null] in every import request. *)
Theorem failed_creation_key_reaches_import (w : World) (dir : str) (files : list str)
    (a b c d e f : value) (st : State) (err : exn)
    (Hcreate : addNewIssue w (execution_issue a b c d e f) = Rejected err)
    (Hdir : readdir w dir = Return files) :
  let created := createJiraTestExecutionTicket w a b c d e f st in
  exists key,
    fst created = Return key /\ key = VNull /\
    let run := importXmlDataToXray w dir key (snd created) in
    fst run = Return tt /\
    length (import_requests (new_events (snd created) (snd run))) =
      length (filter (RegExp_test xml_regex) files) /\
    Forall (fun r => req_url r =
              cat [XRAY_CLOUD_URL w;
                   lit "/api/v2/import/execution/junit?projectKey=DEMO&testExecKey=null"])
           (import_requests (new_events (snd created) (snd run))).
Proof.
  cbv zeta; exists VNull.
  assert (Hc : fst (createJiraTestExecutionTicket w a b c d e f st) = Return VNull).
  { unfold createJiraTestExecutionTicket; step; rewrite Hcreate; reflexivity. }
  split; [exact Hc|]; split; [reflexivity|].
  set (s1 := snd (createJiraTestExecutionTicket w a b c d e f st)).
  destruct (importXmlDataToXray_run w dir VNull files s1 Hdir)
    as (logged & token & st' & -> & Htrace & _).
  cbn [fst snd]; rewrite (new_events_app _ _ _ Htrace).
  rewrite import_requests_app, import_requests_prologue, import_requests_import_events.
  cbn [app]; repeat split.
  - rewrite length_map, length_seq; reflexivity.
  - apply Forall_forall; intros r Hr; apply in_map_iff in Hr as (h & <- & _).
    unfold import_request, import_url, cat; cbn [req_url concat].
    rewrite !app_nil_r; reflexivity.
Qed.

(* ===================================================================== *)
(** * Examples *)
(* ===================================================================== *)

Lemma success_iff_all_candidates_listed_witness :
  fst (findRelatedJiraTicket demo3_world (VStr (lit "main")) (VStr (lit "feature")) false
         initial) = Return [lit "DEMO-3"].
Proof.
  pose proof (success_iff_all_candidates_listed demo3_world (VStr (lit "main"))
                (VStr (lit "feature")) false initial [project (lit "DEMO")] eq_refl)
    as (Hsuccess & _).
  cbv zeta in Hsuccess.
  replace [lit "DEMO-3"]
    with (candidates demo3_world (VStr (lit "main")) (VStr (lit "feature")) false)
    by (vm_compute; reflexivity).
  apply Hsuccess; intros k Hk.
  assert (Ek : k = lit "DEMO-3").
  { revert Hk; vm_compute; intros [<- | []]; reflexivity. }
  subst k; split; [vm_compute; lia|].
  exists (project (lit "DEMO")); split; [left; reflexivity | vm_compute; reflexivity].
Defined.

Lemma returned_keys_distinct_uppercase_witness :
  NoDup [lit "DEMO-3"] /\
  (forall k, In k [lit "DEMO-3"] -> toUpperCase k = k) /\
  (forall k1 k2, In k1 [lit "DEMO-3"] -> In k2 [lit "DEMO-3"] ->
                 toUpperCase k1 = toUpperCase k2 -> k1 = k2).
Proof.
  apply (returned_keys_distinct_uppercase demo3_world (VStr (lit "main"))
           (VStr (lit "feature")) false initial [lit "DEMO-3"]).
  vm_compute; reflexivity.
Defined.

Lemma empty_list_iff_no_key_witness :
  fst (findRelatedJiraTicket no_key_world (VStr (lit "main")) (VStr (lit "feature")) false
         initial) = Return [] <->
  forall pre m post,
    log_text_of no_key_world (VStr (lit "main")) (VStr (lit "feature")) false
      = pre ++ m ++ post -> ~ whole_key_at pre m post.
Proof.
  exact (empty_list_iff_no_key no_key_world (VStr (lit "main")) (VStr (lit "feature"))
           false initial [project (lit "DEMO")] eq_refl).
Defined.

Lemma one_letter_project_always_fails_witness :
  whole_key_at (lit "abc ") (lit "a-1") (lit " fix") /\
  fst (findRelatedJiraTicket one_letter_world (VStr (lit "main")) (VStr (lit "feature"))
         false initial) = Throw not_found.
Proof.
  assert (Hkey : whole_key_at (lit "abc ") (lit "a-1") (lit " fix")).
  { split; [apply matchb_Matches; vm_compute; reflexivity|]; split.
    - intros (s & c & E & Hc).
      change (lit "abc ") with (lit "abc" ++ [" "%char]) in E.
      apply app_inj_tail in E as [_ <-]; discriminate Hc.
    - intros (d & s & E & Hd). injection E as <- _; discriminate Hd. }
  split; [exact Hkey|].
  exact (one_letter_project_always_fails one_letter_world (VStr (lit "main"))
           (VStr (lit "feature")) false initial [project (lit "A")]
           (lit "abc ") (lit " fix") (lit "1") "a"%char eq_refl eq_refl Hkey).
Defined.

Lemma listXmlReports_selects_witness :
  exists keep : str -> bool,
    fst (listXmlReports granted_world (lit "reports") initial) =
      Return (filter keep [lit "a.xml"; lit "notes.txt"; lit "b.xml"]) /\
    xmlReportFiles (vars (snd (listXmlReports granted_world (lit "reports") initial))) =
      Some (filter keep [lit "a.xml"; lit "notes.txt"; lit "b.xml"]) /\
    forall name,
      keep name = true <->
      exists before c after,
        name = before ++ c :: lit "xml" ++ after /\
        forallb not_line_terminator (before ++ [c]) = true.
Proof.
  exact (listXmlReports_selects granted_world (lit "reports")
           [lit "a.xml"; lit "notes.txt"; lit "b.xml"] initial eq_refl).
Defined.

Lemma listXmlReports_keeps_xml_reports_witness :
  exists l, fst (listXmlReports granted_world (lit "reports") initial) = Return l /\
            In (lit "b" ++ lit ".xml") l.
Proof.
  apply (listXmlReports_keeps_xml_reports granted_world (lit "reports")
           [lit "a.xml"; lit "notes.txt"; lit "b.xml"] initial (lit "b") eq_refl).
  - right; right; left; reflexivity.
  - reflexivity.
Defined.

Lemma unreadable_directory_stops_import_witness :
  fst (importXmlDataToXray failing_world (lit "missing") (VStr (lit "DEMO-7")) initial) =
    Throw (Error (lit "ENOENT")) /\
  new_events initial
    (snd (importXmlDataToXray failing_world (lit "missing") (VStr (lit "DEMO-7")) initial)) =
    [fs_readdirSync (lit "missing")].
Proof.
  pose proof (unreadable_directory_stops_import failing_world (lit "missing")
                (VStr (lit "DEMO-7")) initial (Error (lit "ENOENT")) eq_refl)
    as (_ & _ & Hthrow & Hevents & _).
  split; assumption.
Defined.

Lemma granted_token_is_logged_and_used_witness :
  let run := importXmlDataToXray granted_world (lit "reports") (VStr (lit "DEMO-7")) initial in
  xrayToken (vars (snd run)) = VStr (lit "tok") /\
  Forall (fun r => authorization r = Some (lit "Bearer " ++ lit "tok"))
         (import_requests (new_events initial (snd run))).
Proof.
  pose proof (granted_token_is_logged_and_used granted_world (lit "reports")
                (VStr (lit "DEMO-7")) [lit "a.xml"; lit "notes.txt"; lit "b.xml"] initial
                (VObj [(lit "body", VStr (lit "tok"))]) (VStr (lit "tok"))
                eq_refl eq_refl eq_refl) as (_ & _ & Htoken & Hall).
  split; assumption.
Defined.

Lemma unreadable_authentication_answer_witness :
  let run := importXmlDataToXray bodyless_world (lit "reports") (VStr (lit "DEMO-7")) initial in
  fst run = Return tt /\ xrayToken (vars (snd run)) = VUndefined.
Proof.
  pose proof (unreadable_authentication_answer bodyless_world (lit "reports")
                (VStr (lit "DEMO-7")) [lit "a.xml"; lit "notes.txt"; lit "b.xml"] initial
                VUndefined
                (TypeError (lit "Cannot read properties of " ++ ToString VUndefined))
                eq_refl eq_refl eq_refl) as (Hret & _ & Htoken).
  split; assumption.
Defined.

Lemma verified_tickets_are_linked_once_witness :
  let s1 := snd (findRelatedJiraTicket demo3_world (VStr (lit "main"))
                   (VStr (lit "feature")) false initial) in
  filter is_tracker_call
    (new_events s1 (snd (linkTestExecutionResults [lit "DEMO-3"] (VStr (lit "DEMO-7")) s1))) =
  [jira_updateIssue (lit "DEMO-3") (link_update (VStr (lit "DEMO-7")))].
Proof.
  assert (Hreturn : fst (findRelatedJiraTicket demo3_world (VStr (lit "main"))
                           (VStr (lit "feature")) false initial) = Return [lit "DEMO-3"])
    by (vm_compute; reflexivity).
  pose proof (verified_tickets_are_linked_once demo3_world (VStr (lit "main"))
                (VStr (lit "feature")) (VStr (lit "DEMO-7")) false initial
                [lit "DEMO-3"] Hreturn) as (_ & Hcalls & _).
  exact Hcalls.
Defined.

Lemma failed_creation_key_reaches_import_witness :
  let created := createJiraTestExecutionTicket failing_world VNull VNull VNull VNull VNull
                   VNull initial in
  fst created = Return VNull /\
  length (import_requests
            (new_events (snd created)
               (snd (importXmlDataToXray failing_world (lit "reports") VNull (snd created)))))
  = 1.
Proof.
  destruct (failed_creation_key_reaches_import failing_world (lit "reports") [lit "a.xml"]
              VNull VNull VNull VNull VNull VNull initial no_answer eq_refl eq_refl)
    as (key & Hkey & -> & _ & Hlen & _).
  split; [exact Hkey | exact Hlen].
Defined.

Lemma uppercase_keys_come_sorted_witness :
  extract_ticket_keys uppercase_text = sort_u (grep_o ticket_bre uppercase_text) /\
  StronglySorted str_lt (extract_ticket_keys uppercase_text).
Proof.
  apply (uppercase_keys_come_sorted uppercase_text).
  intros m; vm_compute; intros [<- | [<- | []]]; reflexivity.
Defined.
